(** * BSCR: Date, Signal, Observable/Observer and ObservableValue

    A shallow embedding of the HKUltra library (Date.h/Date.cpp, Signal.h,
    Observable.h, ObservableValue.h) and the properties proved about it.

    Layout: [Chrono] models the part of std::chrono the Date class calls,
    [DateM] the Date class with its mutex, [Sig] the Signal template,
    [Obs] the Observer/Observable pair and [OV] ObservableValue. *)

From Stdlib Require Import ZArith Lia Bool String.
From stdpp Require Import gmap list.

Local Open Scope Z_scope.

(** ** std::chrono calendar types

    The calendar types are the C++ standard library's, not this repository's.
    They are modelled after the C++20 standard ([time.cal]): a [year] is a
    16-bit signed value, [month] and [day] are 8-bit unsigned values, and the
    conversion to [sys_days] is the days_from_civil algorithm. *)
Module Chrono.

(** Conversion of an int to the [short] a [std::chrono::year] stores. *)
Definition wrap16 (n : Z) : Z := (n + 32768) mod 65536 - 32768.

Definition Year (n : Z) : Z := wrap16 n.
Definition Month (n : Z) : Z := n mod 256.
Definition Day (n : Z) : Z := n mod 256.

(** [year::ok()]: min() <= y <= max(), with min() = -32767. *)
Definition year_ok (y : Z) : bool := (-32767 <=? y) && (y <=? 32767).
(** [month::ok()] and [day::ok()]. *)
Definition month_ok (m : Z) : bool := (1 <=? m) && (m <=? 12).
Definition day_ok (d : Z) : bool := (1 <=? d) && (d <=? 31).

(** [year::is_leap()]. *)
Definition is_leap (y : Z) : bool :=
  (y mod 4 =? 0) && (negb (y mod 100 =? 0) || (y mod 400 =? 0)).

(** [(y / m / last).day()] for an ok month. *)
Definition last_day (y m : Z) : Z :=
  if m =? 2 then (if is_leap y then 29 else 28)
  else if (m =? 4) || (m =? 6) || (m =? 9) || (m =? 11) then 30
  else 31.

Record year_month_day := mk_ymd { ymd_year : Z; ymd_month : Z; ymd_day : Z }.

(** [year_month_day::ok()]. *)
Definition ok (x : year_month_day) : bool :=
  year_ok (ymd_year x) && month_ok (ymd_month x) && day_ok (ymd_day x)
  && (ymd_day x <=? last_day (ymd_year x) (ymd_month x)).

(** [sys_days(ymd).time_since_epoch().count()]: days since 1970-01-01.
    The operations are C++ integer operations, so division truncates.  For a
    date that is not ok but has an ok year and month the standard defines the
    result as that of the first of the month plus [d - 1], which the formula
    gives; for other dates the standard leaves the result unspecified and the
    value of the formula is taken. *)
Definition days_from_civil (y m d : Z) : Z :=
  let y := if m <=? 2 then y - 1 else y in
  let era := (if 0 <=? y then y else y - 399) ÷ 400 in
  let yoe := y - era * 400 in
  let doy := (153 * (if 2 <? m then m - 3 else m + 9) + 2) ÷ 5 + d - 1 in
  let doe := yoe * 365 + yoe ÷ 4 - yoe ÷ 100 + doy in
  era * 146097 + doe - 719468.

Definition sys_days (x : year_month_day) : Z :=
  days_from_civil (ymd_year x) (ymd_month x) (ymd_day x).

(** [year_month_day{sys_days}]: the civil date of a day count. *)
Definition civil_from_days (z : Z) : year_month_day :=
  let z := z + 719468 in
  let era := (if 0 <=? z then z else z - 146096) ÷ 146097 in
  let doe := z - era * 146097 in
  let yoe := (doe - doe ÷ 1460 + doe ÷ 36524 - doe ÷ 146096) ÷ 365 in
  let y := yoe + era * 400 in
  let doy := doe - (365 * yoe + yoe ÷ 4 - yoe ÷ 100) in
  let mp := (5 * doy + 2) ÷ 153 in
  let d := doy - (153 * mp + 2) ÷ 5 + 1 in
  let m := if mp <? 10 then mp + 3 else mp - 9 in
  mk_ymd (wrap16 (if m <=? 2 then y + 1 else y)) m d.

(** [ymd += years]: the year is recomputed in int and stored as a short. *)
Definition plus_years (x : year_month_day) (n : Z) : year_month_day :=
  mk_ymd (wrap16 (ymd_year x + n)) (ymd_month x) (ymd_day x).

(** [ymd += months]: [(year/month + months) / day]; the month index moves
    modulo 12 and carries into the year, the day is kept. *)
Definition plus_months (x : year_month_day) (n : Z) : year_month_day :=
  let i := ymd_month x - 1 + n in
  mk_ymd (wrap16 (ymd_year x + i / 12)) (i mod 12 + 1) (ymd_day x).

End Chrono.

(** ** Outcomes of a call

    A call returns, throws, or has undefined behaviour.  Two sources of
    undefined behaviour occur in the library: locking a [std::mutex] the
    calling thread already owns (in practice a deadlock), and reading past
    the end of an array. *)
Inductive UB := Relock | OutOfBounds.

Inductive Outcome (A : Type) : Type :=
| Returns (a : A)
| Throws (what : string)
| Undefined (why : UB).
Arguments Returns {A} a.
Arguments Throws {A} what.
Arguments Undefined {A} why.

(** Sequencing: a throw or an undefined step ends the call. *)
#[global] Instance Outcome_bind : MBind Outcome := fun A B k c =>
  match c with
  | Returns a => k a
  | Throws w => Throws w
  | Undefined u => Undefined u
  end.

(** ** The Date class (Date.h, Date.cpp) *)
Module DateM.
Import Chrono.

(** A Date object: its mutex (true while locked), the calendar date and the
    cached serial number. *)
Record Date := mk_Date {
  mtx_ : bool;
  year_month_day_ : year_month_day;
  serial_number_ : Z
}.

Definition set_mtx (b : bool) (this : Date) : Date :=
  mk_Date b (year_month_day_ this) (serial_number_ this).
Definition set_ymd (x : year_month_day) (this : Date) : Date :=
  mk_Date (mtx_ this) x (serial_number_ this).

(** Storage of an object under construction: the mutex is unlocked, the
    other members are written before they are read. *)
Definition blank : Date := mk_Date false (mk_ymd 0 0 0) 0.

(** [std::lock_guard<std::mutex> lock(mtx_)] around a body.  The guard's
    destructor releases the mutex when the body returns or throws; [unlock]
    is that release on the returned object. *)
Definition lock_guard {A} (this : Date) (body : Date -> Outcome A) : Outcome A :=
  if mtx_ this then Undefined Relock else body (set_mtx true this).
Definition unlock (this : Date) : Date := set_mtx false this.

(** [Date::resetSerial]. *)
Definition resetSerial (this : Date) : Date :=
  mk_Date (mtx_ this) (year_month_day_ this) (sys_days (year_month_day_ this)).

Definition days_in_month : list Z := [31; 28; 31; 30; 31; 30; 31; 31; 30; 31; 30; 31].

(** [Date::lastDayOfMonth]: [None] is the read of [days_in_month[month - 1]]
    outside the array. *)
Definition lastDayOfMonth (x : year_month_day) : option Z :=
  let month := ymd_month x in
  if is_leap (ymd_year x) && (month =? 2) then Some 29
  else if month <? 1 then None
  else days_in_month !! Z.to_nat (month - 1).

(** [Date::Date()]. *)
Definition Date_default : Outcome Date :=
  lock_guard blank (fun this =>
    Returns (unlock (resetSerial (set_ymd (mk_ymd (Year 1900) (Month 1) (Day 1)) this)))).

(** [Date::Date(Year, Month, Day)]. *)
Definition Date_ctor (year month day : Z) : Outcome Date :=
  lock_guard blank (fun this =>
    let this := set_ymd (mk_ymd year month day) this in
    if negb (ok (year_month_day_ this)) then Throws "Invalid date."
    else Returns (unlock (resetSerial this))).

(** [Date::operator=] for [this != &rhs]: [std::lock(rhs.mtx_, mtx_)], copy
    of the two members, release of both mutexes.  [rhs] is left as it was. *)
Definition operator_assign (this rhs : Date) : Outcome Date :=
  if mtx_ rhs || mtx_ this then Undefined Relock
  else Returns (mk_Date false (year_month_day_ rhs) (serial_number_ rhs)).

(** [Date::Date(const Date&)]: [*this = date] on the new object. *)
Definition Date_copy (date : Date) : Outcome Date := operator_assign blank date.

Definition year (this : Date) : Outcome Z :=
  lock_guard this (fun this => Returns (ymd_year (year_month_day_ this))).
Definition month (this : Date) : Outcome Z :=
  lock_guard this (fun this => Returns (ymd_month (year_month_day_ this))).
Definition day (this : Date) : Outcome Z :=
  lock_guard this (fun this => Returns (ymd_day (year_month_day_ this))).
Definition serialNumber (this : Date) : Outcome Z :=
  lock_guard this (fun this => Returns (serial_number_ this)).

(** The adjustment shared by the four year/month compound assignments:
    [if (!ymd.ok()) ymd = year / month / lastDayOfMonth(ymd)]. *)
Definition adjust (x : year_month_day) : Outcome year_month_day :=
  if negb (ok x) then
    match lastDayOfMonth x with
    | Some d => Returns (mk_ymd (ymd_year x) (ymd_month x) d)
    | None => Undefined OutOfBounds
    end
  else Returns x.

(** [Date::operator+=(const Years&)] and [operator-=(const Years&)]. *)
Definition add_assign_Years (this : Date) (years : Z) : Outcome Date :=
  lock_guard this (fun this =>
    x ← adjust (plus_years (year_month_day_ this) years);
    Returns (unlock (resetSerial (set_ymd x this)))).
Definition sub_assign_Years (this : Date) (years : Z) : Outcome Date :=
  lock_guard this (fun this =>
    x ← adjust (plus_years (year_month_day_ this) (- years));
    Returns (unlock (resetSerial (set_ymd x this)))).

(** [Date::operator+=(const Months&)] and [operator-=(const Months&)]. *)
Definition add_assign_Months (this : Date) (months : Z) : Outcome Date :=
  lock_guard this (fun this =>
    x ← adjust (plus_months (year_month_day_ this) months);
    Returns (unlock (resetSerial (set_ymd x this)))).
Definition sub_assign_Months (this : Date) (months : Z) : Outcome Date :=
  lock_guard this (fun this =>
    x ← adjust (plus_months (year_month_day_ this) (- months));
    Returns (unlock (resetSerial (set_ymd x this)))).

(** [Date::operator+=(const Days&)] and [operator-=(const Days&)]. *)
Definition add_assign_Days (this : Date) (days : Z) : Outcome Date :=
  lock_guard this (fun this =>
    let x := civil_from_days (sys_days (year_month_day_ this) + days) in
    Returns (unlock (resetSerial (set_ymd x this)))).
Definition sub_assign_Days (this : Date) (days : Z) : Outcome Date :=
  lock_guard this (fun this =>
    let x := civil_from_days (sys_days (year_month_day_ this) - days) in
    Returns (unlock (resetSerial (set_ymd x this)))).

(** [Date::operator+(const Years&)] and [operator-(const Years&)]: no lock
    is taken around the copy. *)
Definition plus_Years (this : Date) (years : Z) : Outcome Date :=
  date ← Date_copy this; add_assign_Years date years.
Definition minus_Years (this : Date) (years : Z) : Outcome Date :=
  date ← Date_copy this; sub_assign_Years date years.

(** [Date::operator+] and [operator-] for Months and Days: the copy is made
    while [mtx_] of [*this] is held. *)
Definition plus_Months (this : Date) (months : Z) : Outcome Date :=
  lock_guard this (fun this =>
    date ← Date_copy this; add_assign_Months date months).
Definition minus_Months (this : Date) (months : Z) : Outcome Date :=
  lock_guard this (fun this =>
    date ← Date_copy this; sub_assign_Months date months).
Definition plus_Days (this : Date) (days : Z) : Outcome Date :=
  lock_guard this (fun this =>
    date ← Date_copy this; add_assign_Days date days).
Definition minus_Days (this : Date) (days : Z) : Outcome Date :=
  lock_guard this (fun this =>
    date ← Date_copy this; sub_assign_Days date days).

(** The comparison operators: [mtx_] of the left operand is held, the
    serial numbers are compared. *)
Definition operator_eq (this rhs : Date) : Outcome bool :=
  lock_guard this (fun this => Returns (serial_number_ this =? serial_number_ rhs)).
Definition operator_gt (this rhs : Date) : Outcome bool :=
  lock_guard this (fun this => Returns (serial_number_ this >? serial_number_ rhs)).
Definition operator_lt (this rhs : Date) : Outcome bool :=
  lock_guard this (fun this => Returns (serial_number_ this <? serial_number_ rhs)).
Definition operator_ge (this rhs : Date) : Outcome bool :=
  lock_guard this (fun this => Returns (serial_number_ this >=? serial_number_ rhs)).
Definition operator_le (this rhs : Date) : Outcome bool :=
  lock_guard this (fun this => Returns (serial_number_ this <=? serial_number_ rhs)).

(** [a != b], which C++20 rewrites to [!(a == b)]. *)
Definition operator_ne (this rhs : Date) : Outcome bool :=
  b ← operator_eq this rhs; Returns (negb b).

End DateM.

(** ** Shared ownership

    A [std::shared_ptr<SlotType>] is the identity of its control block
    ([ConnId]) or empty; the memory holds, for every block that still has a
    strong owner, the slot and the number of strong owners.  A
    [std::weak_ptr] is the identity alone. *)
Module Sig.
(** The identity of a control block. *)
Abbreviation ConnId := nat.
(** The calls made on slots, oldest first. *)
Abbreviation Trace Slot Args := (list (Slot * Args)).
(** [Signal::connections_]: the weak references, in insertion order. *)
Abbreviation Signal := (list nat).

Section Signal.
Context {Slot Args : Type}.


Record Cell := mk_Cell { cell_slot : Slot; use_count : positive }.

Record Memory := mk_Memory {
  cells : gmap nat Cell;
  fresh : ConnId
}.

(** [ConnectionType]: [None] is the empty [shared_ptr]. *)
Definition ConnectionType := option ConnId.

(** [std::make_shared<SlotType>(slot)]: a new block with one owner. *)
Definition make_shared (slot : Slot) (mem : Memory) : ConnId * Memory :=
  (fresh mem, mk_Memory (<[fresh mem := mk_Cell slot 1]> (cells mem)) (S (fresh mem))).

(** The destructor of one strong owner. *)
Definition release (c : ConnId) (mem : Memory) : Memory :=
  match cells mem !! c with
  | Some cell =>
      if (use_count cell =? 1)%positive
      then mk_Memory (delete c (cells mem)) (fresh mem)
      else mk_Memory (<[c := mk_Cell (cell_slot cell) (Pos.pred (use_count cell))]> (cells mem))
                     (fresh mem)
  | None => mem
  end.

(** A copy of a strong owner. *)
Definition acquire (c : ConnId) (mem : Memory) : Memory :=
  mk_Memory (alter (fun cell => mk_Cell (cell_slot cell) (Pos.succ (use_count cell))) c (cells mem))
            (fresh mem).

(** [weak_connection.lock()]. *)
Definition lock (mem : Memory) (weak_connection : ConnId) : ConnectionType :=
  match cells mem !! weak_connection with
  | Some _ => Some weak_connection
  | None => None
  end.

(** [Signal::connect].  The returned handle is the only strong owner. *)
Definition connect (slot : Slot) (connections_ : Signal) (mem : Memory)
  : ConnId * Signal * Memory :=
  let '(connection, mem) := make_shared slot mem in
  (connection, connections_ ++ [connection], mem).

(** [Signal::disconnect]: [erase(remove_if(..., condition), end)] with
    [condition(w) = (w.lock() == connection)]. *)
Definition disconnect (connection : ConnectionType) (connections_ : Signal) (mem : Memory)
  : Signal :=
  filter (fun weak_connection => lock mem weak_connection <> connection) connections_.

(** [Signal::emit]: [remove_if] applies the condition to every element once,
    front to back; the condition calls the slot of a resolvable element and
    keeps it, and marks an unresolvable one for removal. *)
Fixpoint emit (args : Args) (connections_ : Signal) (mem : Memory)
    (trace : Trace Slot Args) : Signal * Trace Slot Args :=
  match connections_ with
  | [] => ([], trace)
  | weak_connection :: rest =>
      match cells mem !! weak_connection with
      | Some cell =>
          let '(kept, trace) := emit args rest mem (trace ++ [(cell_slot cell, args)]) in
          (weak_connection :: kept, trace)
      | None => emit args rest mem trace
      end
  end.

End Signal.
Arguments Cell : clear implicits.
Arguments Memory : clear implicits.
End Sig.

(** ** Observer and Observable (Observable.h)

    Objects are identified by their addresses.  The slot an Observable
    connects is the closure [[observer](args){ observer->onNotify(args); }],
    identified by the observer it captures; a call of it is recorded in the
    trace as a call of [onNotify] on that observer.  [onNotify] is the
    subscriber's code: it is taken not to call back into the library.

    Every member function holds its object's mutex for its whole body and
    none calls a member function that locks the same mutex, so a single
    thread never locks twice; the mutexes of Signal, Observable and
    ObservableValue are left out. *)
Module Obs.
Abbreviation ObserverAddr := nat.
Abbreviation ObservableAddr := nat.

Section Observable.
Context {Args : Type}.


Record Observable := mk_Observable {
  signal_ : list nat;
  connections_ : gmap nat nat
}.

(** A newly constructed Observable. *)
Definition new_Observable : Observable := mk_Observable [] ∅.

(** [Observable::registerObserver]. *)
Definition registerObserver (observer : ObserverAddr) (this : Observable)
    (mem : Sig.Memory ObserverAddr) : Observable * Sig.Memory ObserverAddr :=
  match connections_ this !! observer with
  | None =>
      let '(connection, sig, mem) := Sig.connect observer (signal_ this) mem in
      (mk_Observable sig (<[observer := connection]> (connections_ this)), mem)
  | Some _ => (this, mem)
  end.

(** [Observable::unregisterObserver].  [disconnect] receives a copy of the
    handle; erasing the map entry destroys the handle the map held. *)
Definition unregisterObserver (observer : ObserverAddr) (this : Observable)
    (mem : Sig.Memory ObserverAddr) : Observable * Sig.Memory ObserverAddr :=
  match connections_ this !! observer with
  | Some connection =>
      let mem := Sig.acquire connection mem in
      let sig := Sig.disconnect (Some connection) (signal_ this) mem in
      let mem := Sig.release connection mem in
      (mk_Observable sig (delete observer (connections_ this)), Sig.release connection mem)
  | None => (this, mem)
  end.

(** [Observable::notifyObservers]. *)
Definition notifyObservers (args : Args) (this : Observable)
    (mem : Sig.Memory ObserverAddr) (trace : Sig.Trace ObserverAddr Args)
  : Observable * Sig.Trace ObserverAddr Args :=
  let '(sig, trace) := Sig.emit args (signal_ this) mem trace in
  (mk_Observable sig (connections_ this), trace).

(** The program state: the shared-pointer memory, the Observables, the
    tracked set [observables_] of every Observer, and the trace.  An
    Observable that no call has touched is a newly constructed one; an
    Observer without an entry has an empty tracked set. *)
Record World := mk_World {
  memory : Sig.Memory ObserverAddr;
  observables : gmap nat Observable;
  observers : gmap nat (gset nat);
  trace : Sig.Trace ObserverAddr Args
}.

Definition new_World : World := mk_World (Sig.mk_Memory ∅ 0%nat) ∅ ∅ [].

Definition observable_at (w : World) (b : ObservableAddr) : Observable :=
  default new_Observable (observables w !! b).
Definition observables_ (w : World) (o : ObserverAddr) : gset nat :=
  default ∅ (observers w !! o).

(** A call of a private member function of the Observable at [b]. *)
Definition call_Observable (f : Observable -> Sig.Memory ObserverAddr ->
                                 Observable * Sig.Memory ObserverAddr)
    (b : ObservableAddr) (w : World) : World :=
  let '(this, mem) := f (observable_at w b) (memory w) in
  mk_World mem (<[b := this]> (observables w)) (observers w) (trace w).

(** [Observer::registerWith]. *)
Definition registerWith (o : ObserverAddr) (b : ObservableAddr) (w : World) : World :=
  let w := call_Observable (registerObserver o) b w in
  mk_World (memory w) (observables w) (<[o := {[b]} ∪ observables_ w o]> (observers w)) (trace w).

(** [Observer::unregisterWith]. *)
Definition unregisterWith (o : ObserverAddr) (b : ObservableAddr) (w : World) : World :=
  let w := call_Observable (unregisterObserver o) b w in
  mk_World (memory w) (observables w) (<[o := observables_ w o ∖ {[b]}]> (observers w)) (trace w).

(** [Observer::~Observer]: unregisters from every tracked Observable, then
    the tracked set is destroyed with the object. *)
Definition unregister_all (o : ObserverAddr) (l : list ObservableAddr) (w : World) : World :=
  foldl (fun w b => call_Observable (unregisterObserver o) b w) w l.

Definition destroy (o : ObserverAddr) (w : World) : World :=
  let w := unregister_all o (elements (observables_ w o)) w in
  mk_World (memory w) (observables w) (delete o (observers w)) (trace w).

(** [Observable::notifyObservers] on the Observable at [b]. *)
Definition notify (b : ObservableAddr) (args : Args) (w : World) : World :=
  let '(this, trace) := notifyObservers args (observable_at w b) (memory w) (trace w) in
  mk_World (memory w) (<[b := this]> (observables w)) (observers w) trace.

(** The calls a program makes on Observers and Observables.  Observables
    are not destroyed and Observers are not copied. *)
Inductive Op :=
| RegisterWith (o : ObserverAddr) (b : ObservableAddr)
| UnregisterWith (o : ObserverAddr) (b : ObservableAddr)
| Destroy (o : ObserverAddr)
| Notify (b : ObservableAddr) (args : Args).

Definition step (w : World) (op : Op) : World :=
  match op with
  | RegisterWith o b => registerWith o b w
  | UnregisterWith o b => unregisterWith o b w
  | Destroy o => destroy o w
  | Notify b args => notify b args w
  end.

Definition run (ops : list Op) (w : World) : World := foldl step w ops.

(** The Observer an operation is called on, if any. *)
Definition actor (op : Op) : option ObserverAddr :=
  match op with
  | RegisterWith o _ | UnregisterWith o _ | Destroy o => Some o
  | Notify _ _ => None
  end.

End Observable.
Arguments Op : clear implicits.
Arguments World : clear implicits.
End Obs.

(** ** ObservableValue (ObservableValue.h) *)
Module OV.
Section ObservableValue.
Context {T : Type}.
(** [operator!=] of the value type. *)
Context (ne : T -> T -> bool).

(** An ObservableValue: the address of its [Observable<T>] base and the
    stored value. *)
Record ObservableValue := mk_OV {
  base : Obs.ObservableAddr;
  value_ : T
}.

(** [ObservableValue::get]. *)
Definition get (this : ObservableValue) : T := value_ this.

(** [ObservableValue::set]. *)
Definition set (value : T) (this : ObservableValue) (w : Obs.World T)
  : ObservableValue * Obs.World T :=
  let this := if ne value (value_ this) then mk_OV (base this) value else this in
  (this, Obs.notify (base this) (value_ this) w).

End ObservableValue.
End OV.

(** ** The calendar, as the specification speaks of it

    These definitions do not come from the code: they say what a real
    calendar date and the calendar order are, so that the code can be compared
    with them.  The years are those of [std::chrono::year]. *)
Module Calendar.

Definition leap_year (y : Z) : Prop :=
  (4 | y) /\ (~ (100 | y) \/ (400 | y)).

Definition real_calendar_date (y m d : Z) : Prop :=
  -32767 <= y <= 32767 /\ 1 <= d /\
  ((m ∈ [1; 3; 5; 7; 8; 10; 12] /\ d <= 31)
   \/ (m ∈ [4; 6; 9; 11] /\ d <= 30)
   \/ (m = 2 /\ d <= 28)
   \/ (m = 2 /\ d = 29 /\ leap_year y)).

(** Calendar order: by year, then month, then day. *)
Definition before (a b : Chrono.year_month_day) : Prop :=
  Chrono.ymd_year a < Chrono.ymd_year b
  \/ (Chrono.ymd_year a = Chrono.ymd_year b
      /\ (Chrono.ymd_month a < Chrono.ymd_month b
          \/ (Chrono.ymd_month a = Chrono.ymd_month b
              /\ Chrono.ymd_day a < Chrono.ymd_day b))).

(** Days from 0000-03-01 to the first of March of year [y], counted with
    the leap rule; used to reason about [Chrono.days_from_civil]. *)
Definition march_days (y : Z) : Z := 365 * y + y / 4 - y / 100 + y / 400.

(** The first and the last day count of the years of [std::chrono::year]. *)
Definition min_serial : Z := Chrono.days_from_civil (-32767) 1 1.
Definition max_serial : Z := Chrono.days_from_civil 32767 12 31.

End Calendar.

(** ** Notions used to state the properties of Signal and Observable *)
Module Notions.

(** A Date at rest: unlocked, holding a valid calendar date and its serial. *)
Definition valid_Date (this : DateM.Date) : Prop :=
  DateM.mtx_ this = false
  /\ Chrono.ok (DateM.year_month_day_ this) = true
  /\ DateM.serial_number_ this = Chrono.sys_days (DateM.year_month_day_ this).


Section Notions.
Context {Slot Args : Type}.

(** A weak reference resolves while its block has a strong owner. *)
Definition resolvable (mem : Sig.Memory Slot) (w : nat) : Prop :=
  is_Some (Sig.cells mem !! w).

(** The slot calls one emission makes: one per resolvable entry, in the
    order of the connection list. *)
Definition calls (args : Args) (mem : Sig.Memory Slot) (connections_ : list nat)
  : Sig.Trace Slot Args :=
  omap (fun w => (fun cell => (Sig.cell_slot cell, args)) <$> Sig.cells mem !! w)
       connections_.

(** The weak references of a Signal are of blocks allocated before now. *)
Definition allocated (mem : Sig.Memory Slot) (connections_ : list nat) : Prop :=
  Forall (fun w => (w < Sig.fresh mem)%nat) connections_.

End Notions.

Section ObservableNotions.
Context {Args : Type}.

(** The calls of [onNotify] made on observer [o], in a trace. *)
Definition calls_on (o : nat) (t : Sig.Trace nat Args) : Sig.Trace nat Args :=
  filter (fun e => e.1 = o) t.

(** The connection list and the registry of an Observable agree: the list
    has no duplicates, every registry entry owns a block that is in the
    list and whose slot calls the registered observer, and every list entry
    is the connection of some registry entry. *)
Record observable_wf (mem : Sig.Memory nat) (this : Obs.Observable) : Prop := {
  wf_nodup : NoDup (Obs.signal_ this);
  wf_registered : forall o c,
    Obs.connections_ this !! o = Some c ->
    c ∈ Obs.signal_ this
    /\ exists cell, Sig.cells mem !! c = Some cell /\ Sig.cell_slot cell = o;
  wf_connected : forall c,
    c ∈ Obs.signal_ this -> exists o, Obs.connections_ this !! o = Some c
}.

(** Every Observable is well formed, blocks are allocated below the
    allocation counter, and no block is shared by two Observables. *)
Record consistent (w : Obs.World Args) : Prop := {
  c_observable : forall b, observable_wf (Obs.memory w) (Obs.observable_at w b);
  c_allocated : forall c,
    is_Some (Sig.cells (Obs.memory w) !! c) -> (c < Sig.fresh (Obs.memory w))%nat;
  c_disjoint : forall b1 b2 o1 o2 c,
    Obs.connections_ (Obs.observable_at w b1) !! o1 = Some c ->
    Obs.connections_ (Obs.observable_at w b2) !! o2 = Some c -> b1 = b2
}.

(** Observer [o] has no entry in any registry. *)
Definition absent (o : nat) (w : Obs.World Args) : Prop :=
  forall b, Obs.connections_ (Obs.observable_at w b) !! o = None.

(** Every block of the memory has one owner, the registry entry of the
    Observer its slot calls. *)
Definition sole_owner (w : Obs.World Args) : Prop :=
  forall c cell,
    Sig.cells (Obs.memory w) !! c = Some cell ->
    Sig.use_count cell = 1%positive
    /\ exists b, Obs.connections_ (Obs.observable_at w b) !! Sig.cell_slot cell = Some c.

(** The tracked sets mirror the registries. *)
Definition mirror (w : Obs.World Args) : Prop :=
  forall o b,
    b ∈ Obs.observables_ w o
    <-> is_Some (Obs.connections_ (Obs.observable_at w b) !! o).

End ObservableNotions.
End Notions.

(** * Properties *)

(** ** Calendar arithmetic *)
Section ChronoFacts.
Import Chrono Calendar.

Lemma era_floor y : (if 0 <=? y then y else y - 399) ÷ 400 = y / 400.
Proof.
  destruct (Z.leb_spec 0 y).
  - apply Z.quot_div_nonneg; lia.
  - Z.to_euclidean_division_equations. lia.
Qed.

Lemma days_from_civil_closed y m d :
  1 <= m <= 12 ->
  days_from_civil y m d =
    march_days (if m <=? 2 then y - 1 else y)
    + (153 * (if 2 <? m then m - 3 else m + 9) + 2) / 5 + d - 1 - 719468.
Proof.
  intros Hm. unfold days_from_civil, march_days.
  set (y' := if m <=? 2 then y - 1 else y).
  rewrite era_floor.
  set (mp := if 2 <? m then m - 3 else m + 9).
  assert (0 <= mp <= 11) by (subst mp; destruct (Z.ltb_spec 2 m); lia).
  rewrite (Z.quot_div_nonneg (153 * mp + 2)) by lia.
  assert (0 <= y' - y' / 400 * 400 < 400) by (Z.to_euclidean_division_equations; lia).
  rewrite !(Z.quot_div_nonneg (y' - y' / 400 * 400)) by lia.
  Z.to_euclidean_division_equations; lia.
Qed.

Lemma is_leap_true y :
  is_leap y = true <-> y mod 4 = 0 /\ (y mod 100 <> 0 \/ y mod 400 = 0).
Proof.
  unfold is_leap.
  rewrite andb_true_iff, orb_true_iff, negb_true_iff, !Z.eqb_eq, Z.eqb_neq. tauto.
Qed.

Lemma is_leap_false y :
  is_leap y = false <-> ~ (y mod 4 = 0 /\ (y mod 100 <> 0 \/ y mod 400 = 0)).
Proof. rewrite <- is_leap_true. destruct (is_leap y); split; congruence || tauto. Qed.

Lemma is_leap_leap_year y : is_leap y = true <-> Calendar.leap_year y.
Proof.
  rewrite is_leap_true. unfold Calendar.leap_year.
  rewrite <- !Z.mod_divide by lia. tauto.
Qed.

Lemma ok_true y m d :
  ok (mk_ymd y m d) = true <->
  -32767 <= y <= 32767 /\ 1 <= m <= 12 /\ 1 <= d <= last_day y m.
Proof.
  unfold ok, year_ok, month_ok, day_ok, last_day; cbn [ymd_year ymd_month ymd_day].
  rewrite !andb_true_iff, !Z.leb_le.
  split; [intros; repeat split; try lia|].
  intros (Hy & Hm & Hd). repeat split; try lia.
  revert Hd. repeat (case (_ : bool)); lia.
Qed.

Lemma last_day_cases y m :
  1 <= m <= 12 ->
  last_day y m = (if is_leap y then 29 else 28) /\ m = 2
  \/ last_day y m = 30 /\ (m = 4 \/ m = 6 \/ m = 9 \/ m = 11)
  \/ last_day y m = 31 /\ (m = 1 \/ m = 3 \/ m = 5 \/ m = 7 \/ m = 8 \/ m = 10 \/ m = 12).
Proof.
  intros Hm. unfold last_day.
  destruct (Z.eqb_spec m 2); [left; auto|].
  destruct (Z.eqb_spec m 4), (Z.eqb_spec m 6), (Z.eqb_spec m 9), (Z.eqb_spec m 11);
    cbn [orb]; lia.
Qed.

Lemma last_day_bounds y m : 1 <= m <= 12 -> 28 <= last_day y m <= 31.
Proof.
  intros Hm. destruct (last_day_cases y m Hm) as [[-> _]|[[-> _]|[-> _]]]; try lia.
  destruct (is_leap y); lia.
Qed.

End ChronoFacts.

Ltac leap_cases y :=
  let E := fresh "Hleap" in
  destruct (Chrono.is_leap y) eqn:E;
  [apply is_leap_true in E | apply is_leap_false in E].

Ltac split_ifs :=
  repeat match goal with
  | |- context [if ?a <=? ?b then _ else _] => destruct (Z.leb_spec a b)
  | |- context [if ?a <? ?b then _ else _] => destruct (Z.ltb_spec a b)
  end.

Ltac div_lia := Z.to_euclidean_division_equations; lia.

Section SerialOrder.
Import Chrono Calendar.

(** The first of a later month of the same year comes after the last day of
    an earlier month. *)
Lemma month_start_mono y m1 m2 :
  1 <= m1 -> m1 < m2 -> m2 <= 12 ->
  days_from_civil y m1 1 + last_day y m1 <= days_from_civil y m2 1.
Proof.
  intros H1 H12 H2. rewrite !days_from_civil_closed by lia.
  destruct (last_day_cases y m1) as [[-> ->]|[[-> H]|[-> H]]]; [lia| | |];
    unfold march_days.
  - leap_cases y; split_ifs; try lia; div_lia.
  - split_ifs; try lia; div_lia.
  - leap_cases y; split_ifs; try lia; div_lia.
Qed.

Lemma days_from_civil_day y m d : days_from_civil y m d = days_from_civil y m 1 + (d - 1).
Proof. unfold days_from_civil. lia. Qed.

(** A date lies between the first of January of its year and of the next. *)
Lemma year_bounds y m d :
  1 <= m <= 12 -> 1 <= d <= last_day y m ->
  days_from_civil y 1 1 <= days_from_civil y m d < days_from_civil (y + 1) 1 1.
Proof.
  intros Hm Hd. split.
  - destruct (Z.eq_dec m 1) as [->|].
    + rewrite (days_from_civil_day y 1 d). lia.
    + pose proof (month_start_mono y 1 m). pose proof (last_day_bounds y 1).
      rewrite (days_from_civil_day y m d). lia.
  - rewrite (days_from_civil_day y m d).
    assert (days_from_civil y m 1 + last_day y m <= days_from_civil (y + 1) 1 1); [|lia].
    destruct (Z.eq_dec m 12) as [->|].
    + rewrite !days_from_civil_closed by lia. cbn. unfold march_days.
      replace (y + 1 - 1) with y by lia. div_lia.
    + pose proof (month_start_mono y m 12). pose proof (last_day_bounds y 12).
      assert (days_from_civil y 12 1 + last_day y 12 <= days_from_civil (y + 1) 1 1); [|lia].
      rewrite !days_from_civil_closed by lia. cbn. unfold march_days.
      replace (y + 1 - 1) with y by lia. div_lia.
Qed.

Lemma year_start_mono y1 y2 :
  y1 <= y2 -> days_from_civil y1 1 1 <= days_from_civil y2 1 1.
Proof.
  intros H. rewrite !days_from_civil_closed by lia. cbn. unfold march_days. div_lia.
Qed.

(** The serial number is strictly increasing along the calendar order. *)
Lemma sys_days_lt a b :
  ok a = true -> ok b = true -> Calendar.before a b -> sys_days a < sys_days b.
Proof.
  destruct a as [y1 m1 d1], b as [y2 m2 d2]. unfold Calendar.before, sys_days.
  cbn [ymd_year ymd_month ymd_day]. rewrite !ok_true.
  intros (_ & Hm1 & Hd1) (_ & Hm2 & Hd2) [Hy|[-> [Hm|[-> Hd]]]].
  - pose proof (year_bounds y1 m1 d1 Hm1 Hd1).
    pose proof (year_bounds y2 m2 d2 Hm2 Hd2).
    pose proof (year_start_mono (y1 + 1) y2). lia.
  - pose proof (month_start_mono y2 m1 m2).
    rewrite (days_from_civil_day y2 m1 d1), (days_from_civil_day y2 m2 d2). lia.
  - rewrite (days_from_civil_day y2 m2 d1), (days_from_civil_day y2 m2 d2). lia.
Qed.

Lemma before_trichotomy a b : Calendar.before a b \/ a = b \/ Calendar.before b a.
Proof.
  destruct a as [y1 m1 d1], b as [y2 m2 d2]. unfold Calendar.before.
  cbn [ymd_year ymd_month ymd_day].
  destruct (Z.lt_trichotomy y1 y2) as [?|[->|?]]; [lia| |lia].
  destruct (Z.lt_trichotomy m1 m2) as [?|[->|?]]; [lia| |lia].
  destruct (Z.lt_trichotomy d1 d2) as [?|[->|?]]; [lia| |lia].
  right; left; reflexivity.
Qed.

Lemma before_irrefl a : ~ Calendar.before a a.
Proof. unfold Calendar.before. lia. Qed.

Lemma before_asym a b : Calendar.before a b -> ~ Calendar.before b a.
Proof. unfold Calendar.before. lia. Qed.

(** The serial numbers of two valid dates compare as the dates do. *)
Lemma sys_days_lt_iff a b :
  ok a = true -> ok b = true -> (sys_days a < sys_days b <-> Calendar.before a b).
Proof.
  intros Ha Hb. split; [|apply sys_days_lt; assumption].
  intros Hlt. destruct (before_trichotomy a b) as [?|[->|Hba]]; [assumption|lia|].
  pose proof (sys_days_lt b a Hb Ha Hba). lia.
Qed.

Lemma sys_days_inj a b :
  ok a = true -> ok b = true -> (sys_days a = sys_days b <-> a = b).
Proof.
  intros Ha Hb. split; [|intros ->; reflexivity].
  intros Heq. destruct (before_trichotomy a b) as [Hab|[?|Hba]]; [|assumption|].
  - pose proof (sys_days_lt a b Ha Hb Hab). lia.
  - pose proof (sys_days_lt b a Hb Ha Hba). lia.
Qed.

End SerialOrder.

(** ** The Date class *)
Section DateFacts.
Import Chrono DateM Calendar.

Lemma ok_real_calendar_date y m d :
  ok (mk_ymd y m d) = true <-> real_calendar_date y m d.
Proof.
  rewrite ok_true. unfold real_calendar_date.
  rewrite !elem_of_cons, !elem_of_nil. split.
  - intros (Hy & Hm & Hd).
    destruct (last_day_cases y m Hm) as [[E ->]|[[E H]|[E H]]]; rewrite E in Hd.
    + leap_cases y.
      * destruct (Z.eq_dec d 29) as [->|]; [|split; [lia|split; [lia|right; right; left; lia]]].
        split; [lia|split; [lia|]]. right; right; right.
        split; [reflexivity|split; [reflexivity|]].
        apply is_leap_leap_year, is_leap_true; assumption.
      * split; [lia|split; [lia|right; right; left; lia]].
    + split; [lia|split; [lia|right; left; split; [tauto|lia]]].
    + split; [lia|split; [lia|left; split; [tauto|lia]]].
  - intros (Hy & Hd & H). split; [lia|].
    assert (Hm : 1 <= m <= 12) by (destruct H as [[H _]|[[H _]|[[H _]|[H _]]]]; lia).
    split; [assumption|]. split; [assumption|].
    destruct (last_day_cases y m Hm) as [[E ->]|[[E H']|[E H']]]; rewrite E.
    + destruct H as [[H _]|[[H _]|[[_ H]|(_ & -> & H)]]]; try lia.
      * destruct (is_leap y); lia.
      * apply is_leap_leap_year in H. rewrite H. lia.
    + destruct H as [[H _]|[[_ H]|[[H _]|[H _]]]]; lia.
    + destruct H as [[_ H]|[[H _]|[[H _]|[H _]]]]; lia.
Qed.

Lemma Date_ctor_ok y m d :
  ok (mk_ymd y m d) = true ->
  Date_ctor y m d = Returns (mk_Date false (mk_ymd y m d) (days_from_civil y m d)).
Proof. intros H. unfold Date_ctor, lock_guard. cbn. rewrite H. reflexivity. Qed.

Lemma Date_ctor_not_ok y m d :
  ok (mk_ymd y m d) = false -> Date_ctor y m d = Throws "Invalid date.".
Proof. intros H. unfold Date_ctor, lock_guard. cbn. rewrite H. reflexivity. Qed.

Lemma Date_ctor_Returns y m d dt :
  Date_ctor y m d = Returns dt ->
  ok (mk_ymd y m d) = true /\ dt = mk_Date false (mk_ymd y m d) (days_from_civil y m d).
Proof.
  destruct (ok (mk_ymd y m d)) eqn:E.
  - rewrite (Date_ctor_ok _ _ _ E). intros [= <-]. auto.
  - rewrite (Date_ctor_not_ok _ _ _ E). discriminate.
Qed.

(** C6: the constructor throws the invalid-date exception exactly for the
    triples that are not real calendar dates, and returns a Date, holding
    the triple and its serial number, exactly for those that are; 2023-02-29
    is refused and 2024-02-29 accepted. *)
Theorem Date_ctor_fails_iff_not_calendar_date (y m d : Z) :
  (Date_ctor y m d = Throws "Invalid date." <-> ~ real_calendar_date y m d)
  /\ (real_calendar_date y m d <->
      Date_ctor y m d = Returns (mk_Date false (mk_ymd y m d) (days_from_civil y m d)))
  /\ (real_calendar_date y m d <-> exists dt, Date_ctor y m d = Returns dt)
  /\ Date_ctor (Year 2023) (Month 2) (Day 29) = Throws "Invalid date."
  /\ Date_ctor (Year 2024) (Month 2) (Day 29)
     = Returns (mk_Date false (mk_ymd 2024 2 29) 19782).
Proof.
  rewrite <- ok_real_calendar_date.
  destruct (ok (mk_ymd y m d)) eqn:E.
  - rewrite (Date_ctor_ok _ _ _ E).
    repeat split; try reflexivity; try discriminate; try tauto; eauto.
  - rewrite (Date_ctor_not_ok _ _ _ E).
    repeat split; try reflexivity; try discriminate; try tauto.
    intros [dt H]; discriminate.
Qed.

(** C10: the default constructor gives 1900-01-01 with the serial number of
    that day, 25567 days before the epoch 1970-01-01. *)
Theorem Date_default_is_1900_01_01 :
  Date_default = Returns (mk_Date false (mk_ymd 1900 1 1) (days_from_civil 1900 1 1))
  /\ days_from_civil 1900 1 1 = -25567
  /\ days_from_civil 1970 1 1 = 0
  /\ Date_default = Date_ctor (Year 1900) (Month 1) (Day 1)
  /\ (this ← Date_default; year this) = Returns 1900
  /\ (this ← Date_default; month this) = Returns 1
  /\ (this ← Date_default; day this) = Returns 1
  /\ (this ← Date_default; serialNumber this) = Returns (-25567).
Proof. repeat split; reflexivity. Qed.

(** Every comparison operator returns on unlocked operands. *)
Lemma comparisons_return a b :
  mtx_ a = false ->
  operator_eq a b = Returns (serial_number_ a =? serial_number_ b)
  /\ operator_lt a b = Returns (serial_number_ a <? serial_number_ b)
  /\ operator_gt a b = Returns (serial_number_ a >? serial_number_ b)
  /\ operator_le a b = Returns (serial_number_ a <=? serial_number_ b)
  /\ operator_ge a b = Returns (serial_number_ a >=? serial_number_ b).
Proof.
  intros H.
  unfold operator_eq, operator_lt, operator_gt, operator_le, operator_ge, lock_guard.
  rewrite H. repeat split; reflexivity.
Qed.

(** C8: for Dates built by the constructor, each comparison operator returns
    the comparison of the two serial numbers; [==] holds exactly for equal
    triples, [<] and [>] exactly along the calendar order, [<=] and [>=] are
    their unions with [==]; exactly one of [<], [==], [>] holds. *)
Theorem Date_comparison_by_serial (y1 m1 d1 y2 m2 d2 : Z) (a b : Date) :
  Date_ctor y1 m1 d1 = Returns a ->
  Date_ctor y2 m2 d2 = Returns b ->
  let A := mk_ymd y1 m1 d1 in
  let B := mk_ymd y2 m2 d2 in
  (operator_eq a b = Returns (serial_number_ a =? serial_number_ b)
   /\ operator_lt a b = Returns (serial_number_ a <? serial_number_ b)
   /\ operator_gt a b = Returns (serial_number_ a >? serial_number_ b)
   /\ operator_le a b = Returns (serial_number_ a <=? serial_number_ b)
   /\ operator_ge a b = Returns (serial_number_ a >=? serial_number_ b))
  /\ (serial_number_ a = sys_days A /\ serial_number_ b = sys_days B)
  /\ (operator_eq a b = Returns true <-> A = B)
  /\ (operator_lt a b = Returns true <-> before A B)
  /\ (operator_gt a b = Returns true <-> before B A)
  /\ (operator_le a b = Returns true <-> before A B \/ A = B)
  /\ (operator_ge a b = Returns true <-> before B A \/ A = B)
  /\ (before A B /\ A <> B /\ ~ before B A
      \/ ~ before A B /\ A = B /\ ~ before B A
      \/ ~ before A B /\ A <> B /\ before B A).
Proof.
  intros Ha Hb A B.
  apply Date_ctor_Returns in Ha as [Ha ->]. apply Date_ctor_Returns in Hb as [Hb ->].
  fold A in Ha. fold B in Hb.
  pose proof (sys_days_lt_iff A B Ha Hb) as Hlt.
  pose proof (sys_days_lt_iff B A Hb Ha) as Hgt.
  pose proof (sys_days_inj A B Ha Hb) as Heq.
  pose proof (before_asym A B). pose proof (before_irrefl A).
  split; [apply comparisons_return; reflexivity|].
  split; [split; reflexivity|].
  unfold operator_eq, operator_lt, operator_gt, operator_le, operator_ge, lock_guard.
  cbn [mtx_ serial_number_ set_mtx].
  change (days_from_civil y1 m1 d1) with (sys_days A).
  change (days_from_civil y2 m2 d2) with (sys_days B).
  repeat split.
  - intros [= E]. apply Heq, Z.eqb_eq, E.
  - intros E. apply Heq in E. rewrite E, Z.eqb_refl. reflexivity.
  - intros [= E]. apply Hlt, Z.ltb_lt, E.
  - intros E. apply Hlt, Z.ltb_lt in E. rewrite E. reflexivity.
  - intros [= E]. apply Hgt. apply Z.gtb_lt in E. exact E.
  - intros E. apply Hgt in E. apply Z.gtb_lt in E. rewrite E. reflexivity.
  - intros [= E]. apply Z.leb_le in E.
    destruct (Z.eq_dec (sys_days A) (sys_days B)) as [E'|E'];
      [right; apply Heq, E' | left; apply Hlt; lia].
  - intros [E|E]; f_equal; apply Z.leb_le; [apply Hlt in E; lia | apply Heq in E; lia].
  - intros [= E]. apply Z.geb_le in E.
    destruct (Z.eq_dec (sys_days A) (sys_days B)) as [E'|E'];
      [right; apply Heq, E' | left; apply Hgt; lia].
  - intros [E|E]; f_equal; apply Z.geb_le; [apply Hgt in E; lia | apply Heq in E; lia].
  - destruct (before_trichotomy A B) as [E|[E|E]].
    + left. split; [exact E|]. split; [intros ->; tauto | tauto].
    + right; left. subst B. rewrite E in *. tauto.
    + right; right. split; [intros E'; apply (before_asym _ _ E'), E|].
      split; [intros E'; rewrite E' in E; apply (before_irrefl _ E) | exact E].
Qed.

Lemma Date_comparison_by_serial_witness :
  Date_ctor 2023 1 31 = Returns (mk_Date false (mk_ymd 2023 1 31) 19388)
  /\ Date_ctor 2024 2 29 = Returns (mk_Date false (mk_ymd 2024 2 29) 19782)
  /\ (operator_lt (mk_Date false (mk_ymd 2023 1 31) 19388)
                  (mk_Date false (mk_ymd 2024 2 29) 19782) = Returns true
      <-> before (mk_ymd 2023 1 31) (mk_ymd 2024 2 29)).
Proof.
  split; [reflexivity|]. split; [reflexivity|].
  apply (Date_comparison_by_serial 2023 1 31 2024 2 29 _ _ eq_refl eq_refl).
Defined.

(** *** Year and month arithmetic *)

Lemma wrap16_id n : -32768 <= n <= 32767 -> wrap16 n = n.
Proof. intros H. unfold wrap16. rewrite Z.mod_small; lia. Qed.

Lemma wrap16_range n : -32768 <= wrap16 n <= 32767.
Proof. unfold wrap16. pose proof (Z.mod_pos_bound (n + 32768) 65536). lia. Qed.

(** [Date::lastDayOfMonth] agrees with the calendar's last day on every
    month 1..12, and reads outside its table on every other month value. *)
Lemma lastDayOfMonth_last_day y m d :
  1 <= m <= 12 -> lastDayOfMonth (mk_ymd y m d) = Some (last_day y m).
Proof.
  intros Hm. unfold lastDayOfMonth, last_day. cbn [ymd_year ymd_month].
  assert (m = 1 \/ m = 2 \/ m = 3 \/ m = 4 \/ m = 5 \/ m = 6 \/ m = 7 \/ m = 8
          \/ m = 9 \/ m = 10 \/ m = 11 \/ m = 12) as H by lia.
  destruct (is_leap y);
    repeat (destruct H as [->|H]; [reflexivity|]); subst m; reflexivity.
Qed.

Lemma lastDayOfMonth_out_of_bounds y m d :
  ~ 1 <= m <= 12 -> lastDayOfMonth (mk_ymd y m d) = None.
Proof.
  intros Hm. unfold lastDayOfMonth. cbn [ymd_year ymd_month].
  replace (m =? 2) with false by (symmetry; apply Z.eqb_neq; lia).
  rewrite andb_false_r. destruct (Z.ltb_spec m 1); [reflexivity|].
  apply lookup_ge_None_2. cbn. lia.
Qed.

(** The adjustment clamps the day to the month's last day. *)
Lemma adjust_clamps y m d :
  -32767 <= y <= 32767 -> 1 <= m <= 12 -> 1 <= d ->
  adjust (mk_ymd y m d) = Returns (mk_ymd y m (Z.min d (last_day y m)))
  /\ ok (mk_ymd y m (Z.min d (last_day y m))) = true.
Proof.
  intros Hy Hm Hd. pose proof (last_day_bounds y m Hm) as Hl. unfold adjust.
  destruct (ok (mk_ymd y m d)) eqn:E; cbn [negb].
  - apply ok_true in E. rewrite Z.min_l by lia. split; [reflexivity|].
    apply ok_true. lia.
  - rewrite lastDayOfMonth_last_day by assumption. cbn [ymd_year ymd_month].
    assert (last_day y m < d).
    { destruct (Z.lt_ge_cases (last_day y m) d); [assumption|].
      rewrite (proj2 (ok_true y m d)) in E by lia. discriminate. }
    rewrite Z.min_r by lia. split; [reflexivity|]. apply ok_true. lia.
Qed.



(** C7: [operator+(const Months&)] and [operator-(const Months&)] take the
    lock of [*this] and then copy [*this], which locks the same mutex again:
    they never return a Date, for no operand.  The compound assignments
    [+=] on the same operands do clamp: 2023-01-31 becomes 2023-02-28 and
    2024-01-31 becomes 2024-02-29. *)
Theorem plus_Months_relocks_mutex :
  (forall this months, plus_Months this months = Undefined Relock)
  /\ (forall this months, minus_Months this months = Undefined Relock)
  /\ (d ← Date_ctor 2023 1 31; plus_Months d 1) = Undefined Relock
  /\ (d ← Date_ctor 2024 1 31; plus_Months d 1) = Undefined Relock
  /\ (d ← Date_ctor 2023 1 31; add_assign_Months d 1) = Date_ctor 2023 2 28
  /\ (d ← Date_ctor 2024 1 31; add_assign_Months d 1) = Date_ctor 2024 2 29.
Proof.
  split; [|split]; [| |repeat split; reflexivity];
    intros this months; unfold plus_Months, minus_Months, lock_guard;
    destruct (mtx_ this); reflexivity.
Qed.

End DateFacts.

(** ** Signal *)
Section SignalFacts.
Context {Slot Args : Type}.
Import Notions.
Implicit Types (mem : Sig.Memory Slot) (sig : list nat) (trace : Sig.Trace Slot Args).

Lemma filter_resolvable_cons mem w sig :
  filter (resolvable mem) (w :: sig)
  = match Sig.cells mem !! w with
    | Some _ => w :: filter (resolvable mem) sig
    | None => filter (resolvable mem) sig
    end.
Proof.
  rewrite filter_cons. destruct (decide (resolvable mem w)) as [[cell H]|H].
  - rewrite H. reflexivity.
  - destruct (Sig.cells mem !! w) eqn:E; [|reflexivity].
    exfalso. apply H. unfold resolvable. rewrite E. eauto.
Qed.

Lemma calls_cons (args : Args) mem w sig :
  calls args mem (w :: sig)
  = match Sig.cells mem !! w with
    | Some cell => (Sig.cell_slot cell, args) :: calls args mem sig
    | None => calls args mem sig
    end.
Proof. unfold calls. cbn [omap list_omap]. destruct (Sig.cells mem !! w); reflexivity. Qed.

Lemma emit_spec (args : Args) sig mem trace :
  Sig.emit args sig mem trace
  = (filter (resolvable mem) sig, trace ++ calls args mem sig).
Proof.
  revert trace. induction sig as [|w sig IH]; intros trace; cbn [Sig.emit].
  - unfold calls. cbn. rewrite app_nil_r. reflexivity.
  - rewrite filter_resolvable_cons, calls_cons.
    destruct (Sig.cells mem !! w) as [cell|]; rewrite IH; [|reflexivity].
    rewrite <- app_assoc. reflexivity.
Qed.

Lemma calls_lookup (args : Args) mem sig i w :
  filter (resolvable mem) sig !! i = Some w ->
  exists cell, Sig.cells mem !! w = Some cell
               /\ calls args mem sig !! i = Some (Sig.cell_slot cell, args).
Proof.
  revert i. induction sig as [|v sig IH]; intros i; [discriminate|].
  rewrite filter_resolvable_cons, calls_cons.
  destruct (Sig.cells mem !! v) as [cell|] eqn:E; [|apply IH].
  destruct i as [|i]; cbn; [|apply IH].
  intros [= <-]. eauto.
Qed.

Lemma calls_length (args : Args) mem sig :
  length (calls args mem sig) = length (filter (resolvable mem) sig).
Proof.
  induction sig as [|v sig IH]; [reflexivity|].
  rewrite filter_resolvable_cons, calls_cons.
  destruct (Sig.cells mem !! v); cbn; congruence.
Qed.

(** C2: an emission walks the connection list once, front to back; the
    entries kept are exactly the resolvable ones, in their order; the i-th
    call appended to the trace is the slot of the i-th kept entry, called
    with the emitted arguments, so every resolvable entry is called exactly
    once; every unresolvable entry is gone from the list afterwards. *)
Theorem emit_calls_resolvable_purges_rest (args : Args) sig mem trace :
  let kept := (Sig.emit args sig mem trace).1 in
  let trace' := (Sig.emit args sig mem trace).2 in
  kept = filter (resolvable mem) sig
  /\ (forall w, w ∈ kept <-> w ∈ sig /\ resolvable mem w)
  /\ (forall w, w ∈ sig -> ~ resolvable mem w -> w ∉ kept)
  /\ exists new,
       trace' = trace ++ new
       /\ length new = length kept
       /\ forall i w, kept !! i = Some w ->
            exists cell, Sig.cells mem !! w = Some cell
                         /\ new !! i = Some (Sig.cell_slot cell, args).
Proof.
  rewrite emit_spec. cbn [fst snd]. split; [reflexivity|].
  split; [intros w; rewrite list_elem_of_filter; tauto|].
  split; [intros w _ Hn Hin; apply list_elem_of_filter in Hin; tauto|].
  exists (calls args mem sig). split; [reflexivity|].
  split; [apply calls_length|]. intros i w. apply calls_lookup.
Qed.

Lemma lock_Some mem w c : Sig.lock mem w = Some c -> w = c /\ resolvable mem c.
Proof.
  unfold Sig.lock, resolvable. destruct (Sig.cells mem !! w) eqn:E; [|discriminate].
  intros [= <-]. rewrite E. eauto.
Qed.

(** Disconnecting a handle that owns a block removes the entries of that
    block and no other. *)
Lemma disconnect_Some (c : nat) sig mem :
  resolvable mem c ->
  Sig.disconnect (Some c) sig mem = filter (fun w => w <> c) sig.
Proof.
  intros [cell Hc]. unfold Sig.disconnect. apply list_filter_iff. intros w.
  unfold Sig.lock. destruct (Sig.cells mem !! w) eqn:E.
  - split; intros H; congruence.
  - split; [intros _ ->; congruence | discriminate].
Qed.

Lemma filter_all {A} (P : A -> Prop) `{forall x, Decision (P x)} (l : list A) :
  Forall P l -> filter P l = l.
Proof.
  induction 1 as [|x l Hx _ IH]; [reflexivity|].
  rewrite filter_cons, decide_True by assumption. f_equal. exact IH.
Qed.

Lemma disconnect_untracked (c : nat) sig mem :
  c ∉ sig -> Sig.disconnect (Some c) sig mem = sig.
Proof.
  intros Hc. unfold Sig.disconnect. apply filter_all, Forall_forall.
  intros w Hw Hlock. apply lock_Some in Hlock as [-> _]. contradiction.
Qed.

(** The empty handle matches every entry that no longer resolves. *)
Lemma disconnect_None sig mem :
  Sig.disconnect None sig mem = filter (resolvable mem) sig.
Proof.
  unfold Sig.disconnect. apply list_filter_iff. intros w.
  unfold Sig.lock, resolvable. destruct (Sig.cells mem !! w) eqn:E.
  - split; [eauto | discriminate].
  - split; [congruence | intros [? ?]; discriminate].
Qed.

Lemma connect_fresh (slot : Slot) sig mem :
  Sig.connect slot sig mem
  = (Sig.fresh mem, sig ++ [Sig.fresh mem],
     Sig.mk_Memory (<[Sig.fresh mem := Sig.mk_Cell slot 1]> (Sig.cells mem))
                   (S (Sig.fresh mem))).
Proof. reflexivity. Qed.

Lemma allocated_not_fresh mem sig : allocated mem sig -> Sig.fresh mem ∉ sig.
Proof.
  unfold allocated. rewrite Forall_forall. intros H Hin. apply H in Hin. lia.
Qed.

End SignalFacts.

(** ** Shared ownership *)
Section MemoryFacts.
Context {Slot : Type}.
Import Notions.
Implicit Types (mem : Sig.Memory Slot).

Lemma fresh_release c mem : Sig.fresh (Sig.release c mem) = Sig.fresh mem.
Proof.
  unfold Sig.release. destruct (Sig.cells mem !! c); [|reflexivity].
  destruct (_ =? _)%positive; reflexivity.
Qed.

Lemma cells_release_ne c c' mem :
  c' <> c -> Sig.cells (Sig.release c mem) !! c' = Sig.cells mem !! c'.
Proof.
  intros Hne. unfold Sig.release. destruct (Sig.cells mem !! c); [|reflexivity].
  destruct (_ =? _)%positive; cbn.
  - apply lookup_delete_ne. congruence.
  - apply lookup_insert_ne. congruence.
Qed.

(** Releasing the only owner destroys the block. *)
Lemma release_last c mem slot :
  Sig.cells mem !! c = Some (Sig.mk_Cell slot 1) ->
  Sig.cells (Sig.release c mem) !! c = None.
Proof.
  intros H. unfold Sig.release. rewrite H. cbn. apply lookup_delete_eq.
Qed.

(** A block that has other owners survives a release. *)
Lemma release_shared c mem cell :
  Sig.cells mem !! c = Some cell -> Sig.use_count cell <> 1%positive ->
  Sig.cells (Sig.release c mem) !! c
  = Some (Sig.mk_Cell (Sig.cell_slot cell) (Pos.pred (Sig.use_count cell))).
Proof.
  intros H Hn. unfold Sig.release. rewrite H.
  apply Pos.eqb_neq in Hn. rewrite Hn. cbn. apply lookup_insert_eq.
Qed.

Lemma Memory_eq mem1 mem2 :
  Sig.cells mem1 = Sig.cells mem2 -> Sig.fresh mem1 = Sig.fresh mem2 -> mem1 = mem2.
Proof. destruct mem1, mem2. cbn. intros -> ->. reflexivity. Qed.

(** A temporary copy of a handle leaves the memory as it was. *)
Lemma release_acquire c mem : Sig.release c (Sig.acquire c mem) = mem.
Proof.
  unfold Sig.release.
  assert (Sig.cells (Sig.acquire c mem) !! c
          = (fun cell => Sig.mk_Cell (Sig.cell_slot cell) (Pos.succ (Sig.use_count cell)))
              <$> Sig.cells mem !! c) as ->
    by apply lookup_alter_eq.
  destruct (Sig.cells mem !! c) as [[slot k]|] eqn:E; cbn [fmap option_fmap option_map].
  - cbn [Sig.use_count Sig.cell_slot].
    destruct (Pos.eqb_spec (Pos.succ k) 1) as [Hk|_]; [lia|].
    rewrite Pos.pred_succ. apply Memory_eq; [|reflexivity].
    cbn [Sig.cells Sig.acquire]. apply map_eq. intros i.
    destruct (decide (i = c)) as [->|Hne].
    + rewrite lookup_insert_eq. congruence.
    + rewrite lookup_insert_ne, lookup_alter_ne by congruence. reflexivity.
  - apply Memory_eq; [|reflexivity].
    cbn [Sig.cells Sig.acquire]. apply map_eq. intros i.
    destruct (decide (i = c)) as [->|Hne].
    + rewrite lookup_alter_eq, E. reflexivity.
    + rewrite lookup_alter_ne by congruence. reflexivity.
Qed.

Lemma resolvable_acquire c mem w : resolvable (Sig.acquire c mem) w <-> resolvable mem w.
Proof.
  unfold resolvable, Sig.acquire. cbn.
  destruct (decide (w = c)) as [->|Hne].
  - rewrite lookup_alter_eq. destruct (Sig.cells mem !! c); cbn; split; intros [? ?]; eauto; discriminate.
  - rewrite lookup_alter_ne by congruence. reflexivity.
Qed.

End MemoryFacts.

(** ** Observable *)
Section ObservableFacts.
Context {Args : Type}.
Import Notions.
Implicit Types (w : Obs.World Args) (this : Obs.Observable) (mem : Sig.Memory nat).

Lemma registerObserver_registered o this mem c :
  Obs.connections_ this !! o = Some c -> Obs.registerObserver o this mem = (this, mem).
Proof. intros H. unfold Obs.registerObserver. rewrite H. reflexivity. Qed.

Lemma registerObserver_new o this mem :
  Obs.connections_ this !! o = None ->
  Obs.registerObserver o this mem
  = (Obs.mk_Observable (Obs.signal_ this ++ [Sig.fresh mem])
                       (<[o := Sig.fresh mem]> (Obs.connections_ this)),
     Sig.mk_Memory (<[Sig.fresh mem := Sig.mk_Cell o 1]> (Sig.cells mem))
                   (S (Sig.fresh mem))).
Proof. intros H. unfold Obs.registerObserver. rewrite H. reflexivity. Qed.

Lemma unregisterObserver_unregistered o this mem :
  Obs.connections_ this !! o = None -> Obs.unregisterObserver o this mem = (this, mem).
Proof. intros H. unfold Obs.unregisterObserver. rewrite H. reflexivity. Qed.

Lemma unregisterObserver_registered o this mem c :
  Obs.connections_ this !! o = Some c -> resolvable mem c ->
  Obs.unregisterObserver o this mem
  = (Obs.mk_Observable (filter (fun x => x <> c) (Obs.signal_ this))
                       (delete o (Obs.connections_ this)),
     Sig.release c mem).
Proof.
  intros H Hc. unfold Obs.unregisterObserver. rewrite H.
  rewrite release_acquire, disconnect_Some by (apply resolvable_acquire; exact Hc).
  reflexivity.
Qed.

Lemma notifyObservers_spec (args : Args) this mem trace :
  Obs.notifyObservers args this mem trace
  = (Obs.mk_Observable (filter (resolvable mem) (Obs.signal_ this)) (Obs.connections_ this),
     trace ++ calls args mem (Obs.signal_ this)).
Proof. unfold Obs.notifyObservers. rewrite emit_spec. reflexivity. Qed.

(** *** Calls on the Observable at an address *)

Lemma observable_at_insert b this w b' m os (t : Sig.Trace nat Args) :
  Obs.observable_at (Obs.mk_World m (<[b := this]> (Obs.observables w)) os t) b'
  = if decide (b' = b) then this else Obs.observable_at w b'.
Proof.
  unfold Obs.observable_at. cbn [Obs.observables]. destruct (decide (b' = b)) as [->|Hne].
  - rewrite lookup_insert_eq. reflexivity.
  - rewrite lookup_insert_ne by congruence. reflexivity.
Qed.

Lemma observable_at_call f b w b' :
  Obs.observable_at (Obs.call_Observable f b w) b'
  = if decide (b' = b) then (f (Obs.observable_at w b) (Obs.memory w)).1
    else Obs.observable_at w b'.
Proof.
  unfold Obs.call_Observable. destruct (f _ _) as [this mem] eqn:E.
  rewrite observable_at_insert. reflexivity.
Qed.

Lemma memory_call f b w :
  Obs.memory (Obs.call_Observable f b w) = (f (Obs.observable_at w b) (Obs.memory w)).2.
Proof. unfold Obs.call_Observable. destruct (f _ _); reflexivity. Qed.

Lemma observers_call f b w :
  Obs.observers (Obs.call_Observable f b w) = Obs.observers w.
Proof. unfold Obs.call_Observable. destruct (f _ _); reflexivity. Qed.

Lemma trace_call f b w : Obs.trace (Obs.call_Observable f b w) = Obs.trace w.
Proof. unfold Obs.call_Observable. destruct (f _ _); reflexivity. Qed.

Lemma observables__call f b w o :
  Obs.observables_ (Obs.call_Observable f b w) o = Obs.observables_ w o.
Proof. unfold Obs.observables_. rewrite observers_call. reflexivity. Qed.

(** The registry entries after a registration and after an unregistration. *)
Lemma registry_register o b w b' o' :
  is_Some (Obs.connections_
             (Obs.observable_at (Obs.call_Observable (Obs.registerObserver o) b w) b') !! o')
  <-> (b' = b /\ o' = o) \/ is_Some (Obs.connections_ (Obs.observable_at w b') !! o').
Proof.
  rewrite observable_at_call. destruct (decide (b' = b)) as [->|Hne]; [|tauto].
  destruct (Obs.connections_ (Obs.observable_at w b) !! o) as [c|] eqn:E.
  - rewrite (registerObserver_registered _ _ _ _ E). cbn [fst].
    split; [tauto|]. intros [[_ ->]|H]; [rewrite E; eauto | exact H].
  - rewrite (registerObserver_new _ _ _ E). cbn [fst Obs.connections_].
    destruct (decide (o' = o)) as [->|Hne].
    + rewrite lookup_insert_eq. split; eauto.
    + rewrite lookup_insert_ne by congruence. split; [tauto|].
      intros [[_ ?]|H]; [contradiction | exact H].
Qed.

Lemma registry_unregister o b w b' o' :
  Obs.connections_
    (Obs.observable_at (Obs.call_Observable (Obs.unregisterObserver o) b w) b') !! o'
  = if decide (b' = b /\ o' = o) then None
    else Obs.connections_ (Obs.observable_at w b') !! o'.
Proof.
  rewrite observable_at_call. destruct (decide (b' = b)) as [->|Hne].
  - unfold Obs.unregisterObserver.
    destruct (Obs.connections_ (Obs.observable_at w b) !! o) as [c|] eqn:E;
      cbn [fst Obs.connections_].
    + destruct (decide (o' = o)) as [->|Hne].
      * rewrite lookup_delete_eq, decide_True by tauto. reflexivity.
      * rewrite lookup_delete_ne, decide_False by (congruence || tauto). reflexivity.
    + destruct (decide (b = b /\ o' = o)) as [[_ ->]|_]; congruence.
  - rewrite decide_False by tauto. reflexivity.
Qed.

(** *** The consistency invariant *)

Lemma consistent_irrel w1 w2 :
  Obs.memory w1 = Obs.memory w2 ->
  (forall b, Obs.observable_at w1 b = Obs.observable_at w2 b) ->
  consistent w1 -> consistent w2.
Proof.
  intros Hm Hb [H1 H2 H3]. split.
  - intros b. rewrite <- Hm, <- Hb. apply H1.
  - intros c. rewrite <- Hm. apply H2.
  - intros b1 b2 o1 o2 c. rewrite <- !Hb. apply H3.
Qed.

Lemma consistent_resolvable w b c :
  consistent w -> c ∈ Obs.signal_ (Obs.observable_at w b) -> resolvable (Obs.memory w) c.
Proof.
  intros Hw Hc. destruct (c_observable w Hw b) as [_ Hreg Hconn].
  destruct (Hconn c Hc) as [o Ho]. destruct (Hreg o c Ho) as (_ & cell & Hcell & _).
  unfold resolvable. rewrite Hcell. eauto.
Qed.

Lemma consistent_registered w b o c :
  consistent w -> Obs.connections_ (Obs.observable_at w b) !! o = Some c ->
  c ∈ Obs.signal_ (Obs.observable_at w b)
  /\ (exists cell, Sig.cells (Obs.memory w) !! c = Some cell /\ Sig.cell_slot cell = o)
  /\ (c < Sig.fresh (Obs.memory w))%nat.
Proof.
  intros Hw Ho. destruct (c_observable w Hw b) as [_ Hreg _].
  destruct (Hreg o c Ho) as (Hin & cell & Hcell & Hslot).
  split; [exact Hin|]. split; [eauto|].
  apply (c_allocated w Hw). rewrite Hcell. eauto.
Qed.

Lemma observable_at_new_World b :
  Obs.observable_at (@Obs.new_World Args) b = Obs.new_Observable.
Proof.
  unfold Obs.observable_at, Obs.new_World. cbn [Obs.observables].
  rewrite lookup_empty. reflexivity.
Qed.

Lemma consistent_new_World : consistent (@Obs.new_World Args).
Proof.
  split.
  - intros b. rewrite observable_at_new_World. split; cbn [Obs.new_Observable Obs.signal_ Obs.connections_].
    + constructor.
    + intros o c. rewrite lookup_empty. discriminate.
    + intros c Hc. apply elem_of_nil in Hc. contradiction.
  - intros c. unfold Obs.new_World. cbn [Obs.memory Sig.cells].
    rewrite lookup_empty. intros [? ?]. discriminate.
  - intros b1 b2 o1 o2 c. rewrite !observable_at_new_World.
    cbn [Obs.new_Observable Obs.connections_]. rewrite lookup_empty. discriminate.
Qed.

Lemma consistent_register o b w :
  consistent w -> consistent (Obs.call_Observable (Obs.registerObserver o) b w).
Proof.
  intros Hw.
  destruct (Obs.connections_ (Obs.observable_at w b) !! o) as [c|] eqn:E.
  { apply (consistent_irrel w); [| |exact Hw].
    - rewrite memory_call, (registerObserver_registered _ _ _ _ E). reflexivity.
    - intros b'. rewrite observable_at_call, (registerObserver_registered _ _ _ _ E).
      destruct (decide (b' = b)) as [->|]; reflexivity. }
  set (n := Sig.fresh (Obs.memory w)).
  assert (Hat : forall b', Obs.observable_at (Obs.call_Observable (Obs.registerObserver o) b w) b'
            = if decide (b' = b)
              then Obs.mk_Observable (Obs.signal_ (Obs.observable_at w b) ++ [n])
                     (<[o := n]> (Obs.connections_ (Obs.observable_at w b)))
              else Obs.observable_at w b').
  { intros b'. rewrite observable_at_call, (registerObserver_new _ _ _ E). reflexivity. }
  assert (Hmem : Obs.memory (Obs.call_Observable (Obs.registerObserver o) b w)
            = Sig.mk_Memory (<[n := Sig.mk_Cell o 1]> (Sig.cells (Obs.memory w))) (S n)).
  { rewrite memory_call, (registerObserver_new _ _ _ E). reflexivity. }
  assert (Hold : forall b' o' c, Obs.connections_ (Obs.observable_at w b') !! o' = Some c ->
                                 c <> n).
  { intros b' o' c Hc. apply (consistent_registered w b' o' c Hw) in Hc as (_ & _ & Hlt).
    fold n in Hlt. lia. }
  split.
  - intros b'. rewrite Hat, Hmem. destruct (c_observable w Hw b') as [Hnd Hreg Hconn].
    destruct (decide (b' = b)) as [->|Hne]; split; cbn [Obs.signal_ Obs.connections_ Sig.cells].
    + apply NoDup_app. split; [exact Hnd|]. split; [|apply NoDup_singleton].
      intros c Hc Hc'. apply list_elem_of_singleton in Hc'. subst c.
      destruct (Hconn n Hc) as [o' Ho']. apply (Hold b o' n Ho'). reflexivity.
    + intros o' c. destruct (decide (o' = o)) as [->|Hne].
      * rewrite lookup_insert_eq. intros [= <-].
        split; [apply elem_of_app; right; apply list_elem_of_singleton; reflexivity|].
        rewrite lookup_insert_eq. eauto.
      * rewrite lookup_insert_ne by congruence. intros Hc.
        destruct (Hreg o' c Hc) as (Hin & cell & Hcell & Hslot).
        split; [apply elem_of_app; left; exact Hin|].
        rewrite lookup_insert_ne by (apply not_eq_sym, (Hold b o'), Hc).
        eauto.
    + intros c Hc. apply elem_of_app in Hc as [Hc|Hc].
      * destruct (Hconn c Hc) as [o' Ho']. exists o'.
        rewrite lookup_insert_ne; [exact Ho'|]. intros <-. congruence.
      * apply list_elem_of_singleton in Hc. subst c. exists o. apply lookup_insert_eq.
    + exact Hnd.
    + intros o' c Hc. destruct (Hreg o' c Hc) as (Hin & cell & Hcell & Hslot).
      split; [exact Hin|]. rewrite lookup_insert_ne by (apply not_eq_sym, (Hold b' o'), Hc).
      eauto.
    + exact Hconn.
  - intros c. rewrite Hmem. cbn [Sig.cells Sig.fresh].
    destruct (decide (c = n)) as [->|Hne]; [lia|].
    rewrite lookup_insert_ne by congruence. intros Hc.
    apply (c_allocated w Hw) in Hc. fold n in Hc. lia.
  - intros b1 b2 o1 o2 c. rewrite !Hat.
    destruct (decide (b1 = b)) as [->|H1], (decide (b2 = b)) as [->|H2];
      cbn [Obs.connections_]; try reflexivity.
    + destruct (decide (o1 = o)) as [->|Hn1].
      * rewrite lookup_insert_eq. intros [= <-] Hc. exfalso. apply (Hold b2 o2 n Hc). reflexivity.
      * rewrite lookup_insert_ne by congruence. apply (c_disjoint w Hw).
    + destruct (decide (o2 = o)) as [->|Hn2].
      * rewrite lookup_insert_eq. intros Hc [= <-]. exfalso. apply (Hold b1 o1 n Hc). reflexivity.
      * rewrite lookup_insert_ne by congruence. apply (c_disjoint w Hw).
    + apply (c_disjoint w Hw).
Qed.

Lemma cells_release_Some c mem c' cell' :
  Sig.cells (Sig.release c mem) !! c' = Some cell' ->
  exists cell, Sig.cells mem !! c' = Some cell /\ Sig.cell_slot cell = Sig.cell_slot cell'.
Proof.
  destruct (decide (c' = c)) as [->|Hne].
  - unfold Sig.release. destruct (Sig.cells mem !! c) as [cell|] eqn:E.
    + destruct (_ =? _)%positive; cbn [Sig.cells].
      * rewrite lookup_delete_eq. discriminate.
      * rewrite lookup_insert_eq. intros [= <-]. eauto.
    + rewrite E. discriminate.
  - rewrite cells_release_ne by exact Hne. eauto.
Qed.

Lemma consistent_unregister o b w :
  consistent w -> consistent (Obs.call_Observable (Obs.unregisterObserver o) b w).
Proof.
  intros Hw.
  destruct (Obs.connections_ (Obs.observable_at w b) !! o) as [c|] eqn:E.
  2:{ apply (consistent_irrel w); [| |exact Hw].
    - rewrite memory_call, (unregisterObserver_unregistered _ _ _ E). reflexivity.
    - intros b'. rewrite observable_at_call, (unregisterObserver_unregistered _ _ _ E).
      destruct (decide (b' = b)) as [->|]; reflexivity. }
  destruct (consistent_registered w b o c Hw E) as (Hcin & (cell & Hcell & Hslot) & Hlt).
  assert (Hres : resolvable (Obs.memory w) c) by (unfold resolvable; rewrite Hcell; eauto).
  assert (Hat : forall b', Obs.observable_at (Obs.call_Observable (Obs.unregisterObserver o) b w) b'
            = if decide (b' = b)
              then Obs.mk_Observable (filter (fun x => x <> c) (Obs.signal_ (Obs.observable_at w b)))
                     (delete o (Obs.connections_ (Obs.observable_at w b)))
              else Obs.observable_at w b').
  { intros b'. rewrite observable_at_call, (unregisterObserver_registered _ _ _ _ E Hres).
    reflexivity. }
  assert (Hmem : Obs.memory (Obs.call_Observable (Obs.unregisterObserver o) b w)
            = Sig.release c (Obs.memory w)).
  { rewrite memory_call, (unregisterObserver_registered _ _ _ _ E Hres). reflexivity. }
  assert (Hother : forall b' o' c', Obs.connections_ (Obs.observable_at w b') !! o' = Some c' ->
                     (b' <> b \/ o' <> o) -> c' <> c).
  { intros b' o' c' Hc' Hne ->.
    pose proof (c_disjoint w Hw b' b o' o c Hc' E) as ->.
    destruct (consistent_registered w b o' c Hw Hc') as (_ & (cell' & Hcell' & Hslot') & _).
    destruct Hne as [Hne|Hne]; [congruence|]. apply Hne. congruence. }
  split.
  - intros b'. rewrite Hat, Hmem. destruct (c_observable w Hw b') as [Hnd Hreg Hconn].
    destruct (decide (b' = b)) as [->|Hne]; split; cbn [Obs.signal_ Obs.connections_].
    + apply NoDup_filter, Hnd.
    + intros o' c'. destruct (decide (o' = o)) as [->|Hno].
      * rewrite lookup_delete_eq. discriminate.
      * rewrite lookup_delete_ne by congruence. intros Hc'.
        assert (c' <> c) by (apply (Hother b o' c' Hc'); tauto).
        destruct (Hreg o' c' Hc') as (Hin & cell' & Hcell' & Hslot').
        split; [apply list_elem_of_filter; tauto|].
        rewrite cells_release_ne by assumption. eauto.
    + intros c' Hc'. apply list_elem_of_filter in Hc' as [Hne Hc'].
      destruct (Hconn c' Hc') as [o' Ho']. exists o'.
      rewrite lookup_delete_ne; [exact Ho'|]. intros <-. congruence.
    + exact Hnd.
    + intros o' c' Hc'. assert (c' <> c) by (apply (Hother b' o' c' Hc'); tauto).
      destruct (Hreg o' c' Hc') as (Hin & cell' & Hcell' & Hslot').
      split; [exact Hin|]. rewrite cells_release_ne by assumption. eauto.
    + exact Hconn.
  - intros c'. rewrite Hmem, fresh_release. intros [cell' Hc'].
    apply cells_release_Some in Hc' as (cell0 & Hc0 & _).
    apply (c_allocated w Hw). rewrite Hc0. eauto.
  - intros b1 b2 o1 o2 c'. rewrite !Hat.
    assert (Hdel : forall o', delete o (Obs.connections_ (Obs.observable_at w b)) !! o' = Some c' ->
              Obs.connections_ (Obs.observable_at w b) !! o' = Some c').
    { intros o'. destruct (decide (o' = o)) as [->|Hno].
      - rewrite lookup_delete_eq. discriminate.
      - rewrite lookup_delete_ne by congruence. tauto. }
    destruct (decide (b1 = b)) as [->|H1], (decide (b2 = b)) as [->|H2];
      cbn [Obs.connections_]; try reflexivity.
    + intros Hc1 Hc2. apply Hdel in Hc1. apply (c_disjoint w Hw _ _ _ _ _ Hc1 Hc2).
    + intros Hc1 Hc2. apply Hdel in Hc2. apply (c_disjoint w Hw _ _ _ _ _ Hc1 Hc2).
    + apply (c_disjoint w Hw).
Qed.

(** Under the invariant an emission finds every entry resolvable: the
    Observable is left as it was. *)
Lemma notify_spec b (args : Args) w :
  consistent w ->
  Obs.notify b args w
  = Obs.mk_World (Obs.memory w) (<[b := Obs.observable_at w b]> (Obs.observables w))
      (Obs.observers w)
      (Obs.trace w ++ calls args (Obs.memory w) (Obs.signal_ (Obs.observable_at w b))).
Proof.
  intros Hw. unfold Obs.notify. rewrite notifyObservers_spec.
  rewrite filter_all; [destruct (Obs.observable_at w b); reflexivity|].
  apply Forall_forall. intros c Hc. apply (consistent_resolvable w b c Hw Hc).
Qed.

Lemma consistent_notify b (args : Args) w :
  consistent w -> consistent (Obs.notify b args w).
Proof.
  intros Hw. rewrite (notify_spec b args w Hw).
  apply (consistent_irrel w); [reflexivity| |exact Hw].
  intros b'. rewrite observable_at_insert. destruct (decide (b' = b)) as [->|]; reflexivity.
Qed.

(** *** Operations of the Observer *)

Lemma observable_at_observers w os (t : Sig.Trace nat Args) b :
  Obs.observable_at (Obs.mk_World (Obs.memory w) (Obs.observables w) os t) b
  = Obs.observable_at w b.
Proof. reflexivity. Qed.

Lemma consistent_registerWith o b w : consistent w -> consistent (Obs.registerWith o b w).
Proof.
  intros Hw. apply (consistent_irrel (Obs.call_Observable (Obs.registerObserver o) b w));
    [reflexivity|reflexivity|]. apply consistent_register, Hw.
Qed.

Lemma consistent_unregisterWith o b w : consistent w -> consistent (Obs.unregisterWith o b w).
Proof.
  intros Hw. apply (consistent_irrel (Obs.call_Observable (Obs.unregisterObserver o) b w));
    [reflexivity|reflexivity|]. apply consistent_unregister, Hw.
Qed.

Lemma destroy_unregister_all o w :
  Obs.destroy o w
  = let w' := Obs.unregister_all o (elements (Obs.observables_ w o)) w in
    Obs.mk_World (Obs.memory w') (Obs.observables w') (delete o (Obs.observers w'))
                 (Obs.trace w').
Proof. reflexivity. Qed.

Lemma unregister_all_cons o b l w :
  Obs.unregister_all o (b :: l) w
  = Obs.unregister_all o l (Obs.call_Observable (Obs.unregisterObserver o) b w).
Proof. reflexivity. Qed.

Lemma consistent_unregister_all o l w : consistent w -> consistent (Obs.unregister_all o l w).
Proof.
  revert w. induction l as [|b l IH]; intros w Hw; [exact Hw|].
  rewrite unregister_all_cons. apply IH, consistent_unregister, Hw.
Qed.

Lemma observers_unregister_all o l w :
  Obs.observers (Obs.unregister_all o l w) = Obs.observers w.
Proof.
  revert w. induction l as [|b l IH]; intros w; [reflexivity|].
  rewrite unregister_all_cons, IH. apply observers_call.
Qed.

Lemma trace_unregister_all o l w : Obs.trace (Obs.unregister_all o l w) = Obs.trace w.
Proof.
  revert w. induction l as [|b l IH]; intros w; [reflexivity|].
  rewrite unregister_all_cons, IH. apply trace_call.
Qed.

Lemma registry_unregister_all o l w b' o' :
  Obs.connections_ (Obs.observable_at (Obs.unregister_all o l w) b') !! o'
  = if decide (o' = o /\ b' ∈ l) then None
    else Obs.connections_ (Obs.observable_at w b') !! o'.
Proof.
  revert w. induction l as [|b l IH]; intros w.
  - rewrite decide_False; [reflexivity|]. intros [_ H]. apply elem_of_nil in H. exact H.
  - rewrite unregister_all_cons, IH, registry_unregister.
    destruct (decide (o' = o /\ b' ∈ l)) as [[-> Hin]|Hn].
    + rewrite decide_True; [reflexivity|]. split; [reflexivity|]. apply elem_of_cons. tauto.
    + destruct (decide (b' = b /\ o' = o)) as [[-> ->]|Hn'].
      * rewrite decide_True; [reflexivity|]. split; [reflexivity|]. apply elem_of_cons. tauto.
      * rewrite decide_False; [reflexivity|]. intros [-> H]. apply elem_of_cons in H. tauto.
Qed.

Lemma consistent_destroy o w : consistent w -> consistent (Obs.destroy o w).
Proof.
  intros Hw. rewrite destroy_unregister_all.
  apply (consistent_irrel (Obs.unregister_all o (elements (Obs.observables_ w o)) w));
    [reflexivity|reflexivity|]. apply consistent_unregister_all, Hw.
Qed.

Lemma consistent_step w op : consistent w -> consistent (Obs.step w op).
Proof.
  destruct op; cbn [Obs.step].
  - apply consistent_registerWith.
  - apply consistent_unregisterWith.
  - apply consistent_destroy.
  - apply consistent_notify.
Qed.

(** *** The mirror invariant *)

Lemma observables__insert w m obs o s (t : Sig.Trace nat Args) o' :
  Obs.observables_ (Obs.mk_World m obs (<[o := s]> (Obs.observers w)) t) o'
  = if decide (o' = o) then s else Obs.observables_ w o'.
Proof.
  unfold Obs.observables_. cbn [Obs.observers]. destruct (decide (o' = o)) as [->|Hne].
  - rewrite lookup_insert_eq. reflexivity.
  - rewrite lookup_insert_ne by congruence. reflexivity.
Qed.

Lemma observables__delete w m obs o (t : Sig.Trace nat Args) o' :
  Obs.observables_ (Obs.mk_World m obs (delete o (Obs.observers w)) t) o'
  = if decide (o' = o) then ∅ else Obs.observables_ w o'.
Proof.
  unfold Obs.observables_. cbn [Obs.observers]. destruct (decide (o' = o)) as [->|Hne].
  - rewrite lookup_delete_eq. reflexivity.
  - rewrite lookup_delete_ne by congruence. reflexivity.
Qed.

Lemma mirror_registerWith o b w : mirror w -> mirror (Obs.registerWith o b w).
Proof.
  intros Hm o' b'. unfold Obs.registerWith.
  rewrite observable_at_observers, registry_register, observables__insert.
  rewrite !observables__call. specialize (Hm o' b').
  destruct (decide (o' = o)) as [->|Hne].
  - rewrite elem_of_union, elem_of_singleton. split.
    + intros [->|H]; [left; split; reflexivity | right; apply Hm, H].
    + intros [[-> _]|H]; [left; reflexivity | right; apply Hm, H].
  - split; [intros H; right; apply Hm, H|].
    intros [[_ ?]|H]; [contradiction | apply Hm, H].
Qed.

Lemma mirror_unregisterWith o b w : mirror w -> mirror (Obs.unregisterWith o b w).
Proof.
  intros Hm o' b'. unfold Obs.unregisterWith.
  rewrite observable_at_observers, registry_unregister, observables__insert.
  rewrite !observables__call. specialize (Hm o' b').
  destruct (decide (o' = o)) as [->|Hne].
  - rewrite elem_of_difference, elem_of_singleton.
    destruct (decide (b' = b /\ o = o)) as [[-> _]|Hn].
    + split; [tauto|]. intros [? ?]. discriminate.
    + split; [intros [H _]; apply Hm, H|].
      intros H. split; [apply Hm, H|]. intros ->. apply Hn. split; reflexivity.
  - rewrite decide_False by tauto. tauto.
Qed.

Lemma mirror_destroy o w : mirror w -> mirror (Obs.destroy o w).
Proof.
  intros Hm o' b'. rewrite destroy_unregister_all. cbv zeta.
  rewrite observable_at_observers, registry_unregister_all, observers_unregister_all.
  rewrite observables__delete. specialize (Hm o' b').
  destruct (decide (o' = o)) as [->|Hne].
  - destruct (decide (o = o /\ b' ∈ elements (Obs.observables_ w o))) as [_|Hn].
    + split; [intros H; apply not_elem_of_empty in H; contradiction|].
      intros [? ?]. discriminate.
    + split; [intros H; apply not_elem_of_empty in H; contradiction|].
      intros H. exfalso. apply Hn. split; [reflexivity | apply elem_of_elements, Hm, H].
  - rewrite decide_False by tauto. tauto.
Qed.

Lemma mirror_notify b (args : Args) w : consistent w -> mirror w -> mirror (Obs.notify b args w).
Proof.
  intros Hw Hm o' b'. rewrite (notify_spec b args w Hw), observable_at_insert.
  destruct (decide (b' = b)) as [->|]; apply Hm.
Qed.

Lemma mirror_new_World : mirror (@Obs.new_World Args).
Proof.
  intros o b. rewrite observable_at_new_World. unfold Obs.observables_, Obs.new_World.
  cbn [Obs.observers Obs.new_Observable Obs.connections_]. rewrite !lookup_empty. cbn.
  split; [intros H; apply not_elem_of_empty in H; contradiction|].
  intros [? ?]. discriminate.
Qed.

Lemma invariant_step w op : consistent w /\ mirror w -> consistent (Obs.step w op) /\ mirror (Obs.step w op).
Proof.
  intros [Hw Hm]. split; [apply consistent_step, Hw|].
  destruct op; cbn [Obs.step].
  - apply mirror_registerWith, Hm.
  - apply mirror_unregisterWith, Hm.
  - apply mirror_destroy, Hm.
  - apply mirror_notify; assumption.
Qed.

Lemma invariant_run ops w : consistent w /\ mirror w -> consistent (Obs.run ops w) /\ mirror (Obs.run ops w).
Proof.
  revert w. induction ops as [|op ops IH]; intros w H; [exact H|].
  apply IH, invariant_step, H.
Qed.

Lemma invariant_reachable (ops : list (Obs.Op Args)) :
  consistent (Obs.run ops Obs.new_World) /\ mirror (Obs.run ops Obs.new_World).
Proof. apply invariant_run. split; [apply consistent_new_World | apply mirror_new_World]. Qed.

End ObservableFacts.

(** ** Observer *)
Section ObserverFacts.
Context {Args : Type}.
Import Notions.
Implicit Types (w : Obs.World Args) (mem : Sig.Memory nat).

(** *** Who is called by a notification *)

Lemma calls_on_cons o (e : nat * Args) t :
  calls_on o (e :: t) = if decide (e.1 = o) then e :: calls_on o t else calls_on o t.
Proof. unfold calls_on. rewrite filter_cons. reflexivity. Qed.

Lemma calls_on_app o (t1 t2 : Sig.Trace nat Args) :
  calls_on o (t1 ++ t2) = calls_on o t1 ++ calls_on o t2.
Proof. unfold calls_on. apply filter_app. Qed.

(** No entry of the list has a slot that calls [o]. *)
Lemma calls_on_none o (args : Args) mem l :
  (forall c cell, c ∈ l -> Sig.cells mem !! c = Some cell -> Sig.cell_slot cell <> o) ->
  calls_on o (calls args mem l) = [].
Proof.
  induction l as [|x l IH]; intros H; [reflexivity|].
  rewrite calls_cons. destruct (Sig.cells mem !! x) as [cell|] eqn:E.
  - rewrite calls_on_cons. cbn [fst].
    rewrite decide_False by (apply (H x cell); [left|exact E]).
    apply IH. intros c cell' Hc. apply H. right. exact Hc.
  - apply IH. intros c cell' Hc. apply H. right. exact Hc.
Qed.

(** Exactly one entry of a duplicate-free list has a slot that calls [o]. *)
Lemma calls_on_one o (args : Args) mem l c cell :
  NoDup l -> c ∈ l -> Sig.cells mem !! c = Some cell -> Sig.cell_slot cell = o ->
  (forall c' cell', c' ∈ l -> c' <> c -> Sig.cells mem !! c' = Some cell' ->
                    Sig.cell_slot cell' <> o) ->
  calls_on o (calls args mem l) = [(o, args)].
Proof.
  intros Hnd Hin Hcell Hslot Hother. induction Hnd as [|x l Hx Hnd IH]; [inversion Hin|].
  rewrite calls_cons. destruct (decide (x = c)) as [->|Hne].
  - rewrite Hcell, calls_on_cons. cbn [fst]. rewrite decide_True by exact Hslot.
    rewrite Hslot. f_equal. apply calls_on_none. intros c' cell' Hc' Hcell'.
    apply (Hother c' cell'); [right; exact Hc'| |exact Hcell']. intros ->. contradiction.
  - assert (c ∈ l) by (apply elem_of_cons in Hin as [->|?]; [contradiction|assumption]).
    assert (calls_on o (calls args mem l) = [(o, args)]) as IH'.
    { apply IH; [assumption|]. intros c' cell' Hc'. apply Hother. right. exact Hc'. }
    destruct (Sig.cells mem !! x) as [cellx|] eqn:E; [|exact IH'].
    rewrite calls_on_cons. cbn [fst].
    rewrite decide_False by (apply (Hother x cellx); [left|exact Hne|exact E]). exact IH'.
Qed.

(** One emission of a consistent Observable calls a registered observer
    once, with the emitted arguments, and an unregistered one not at all. *)
Lemma calls_on_emission o b (args : Args) w :
  consistent w ->
  calls_on o (calls args (Obs.memory w) (Obs.signal_ (Obs.observable_at w b)))
  = match Obs.connections_ (Obs.observable_at w b) !! o with
    | Some _ => [(o, args)]
    | None => []
    end.
Proof.
  intros Hw. destruct (c_observable w Hw b) as [Hnd Hreg Hconn].
  destruct (Obs.connections_ (Obs.observable_at w b) !! o) as [c|] eqn:E.
  - destruct (Hreg o c E) as (Hin & cell & Hcell & Hslot).
    apply (calls_on_one o args _ _ c cell Hnd Hin Hcell Hslot).
    intros c' cell' Hc' Hne Hcell' Hslot'.
    destruct (Hconn c' Hc') as [o' Ho']. destruct (Hreg o' c' Ho') as (_ & cell'' & Hc'' & Hs'').
    assert (o' = o) as -> by congruence. congruence.
  - apply calls_on_none. intros c cell Hc Hcell Hslot.
    destruct (Hconn c Hc) as [o' Ho']. destruct (Hreg o' c Ho') as (_ & cell' & Hc' & Hs').
    assert (o' = o) as -> by congruence. congruence.
Qed.

Lemma trace_notify b (args : Args) w :
  consistent w ->
  Obs.trace (Obs.notify b args w)
  = Obs.trace w ++ calls args (Obs.memory w) (Obs.signal_ (Obs.observable_at w b)).
Proof. intros Hw. rewrite (notify_spec b args w Hw). reflexivity. Qed.

(** C9: after every sequence of registerWith, unregisterWith, Observer
    destruction and notify calls, an Observable is in the tracked set of an
    Observer exactly when its registry has an entry for that Observer. *)
Theorem tracked_sets_mirror_registries (ops : list (Obs.Op Args)) (o b : nat) :
  b ∈ Obs.observables_ (Obs.run ops Obs.new_World) o
  <-> is_Some (Obs.connections_ (Obs.observable_at (Obs.run ops Obs.new_World) b) !! o).
Proof. apply (invariant_reachable ops). Qed.

(** *** Registering twice *)

Lemma registerObserver_registers o this mem :
  is_Some (Obs.connections_ (Obs.registerObserver o this mem).1 !! o).
Proof.
  destruct (Obs.connections_ this !! o) as [c|] eqn:E.
  - rewrite (registerObserver_registered _ _ _ _ E). cbn [fst]. rewrite E. eauto.
  - rewrite (registerObserver_new _ _ _ E). cbn [fst Obs.connections_].
    rewrite lookup_insert_eq. eauto.
Qed.

Lemma registerWith_fields o b w :
  Obs.registerWith o b w
  = Obs.mk_World (Obs.registerObserver o (Obs.observable_at w b) (Obs.memory w)).2
      (<[b := (Obs.registerObserver o (Obs.observable_at w b) (Obs.memory w)).1]>
         (Obs.observables w))
      (<[o := {[b]} ∪ Obs.observables_ w o]> (Obs.observers w))
      (Obs.trace w).
Proof.
  unfold Obs.registerWith, Obs.call_Observable.
  destruct (Obs.registerObserver o (Obs.observable_at w b) (Obs.memory w)); reflexivity.
Qed.

(** A second registration changes nothing at all. *)
Lemma registerWith_twice o b w :
  Obs.registerWith o b (Obs.registerWith o b w) = Obs.registerWith o b w.
Proof.
  rewrite (registerWith_fields o b w).
  destruct (registerObserver_registers o (Obs.observable_at w b) (Obs.memory w)) as [c Hc].
  destruct (Obs.registerObserver o (Obs.observable_at w b) (Obs.memory w)) as [this mem].
  cbn [fst snd] in *. rewrite registerWith_fields.
  unfold Obs.observable_at, Obs.observables_.
  cbn [Obs.memory Obs.observables Obs.observers Obs.trace].
  rewrite !lookup_insert_eq. cbn [default].
  rewrite (registerObserver_registered _ _ _ _ Hc). cbn [fst snd].
  rewrite !insert_insert_eq. f_equal. f_equal.
  unfold id. apply set_eq. intros x. rewrite !elem_of_union. tauto.
Qed.

Lemma filter_none {A} (P : A -> Prop) `{forall x, Decision (P x)} (l : list A) :
  Forall (fun x => ~ P x) l -> filter P l = [].
Proof.
  induction 1 as [|x l Hx _ IH]; [reflexivity|].
  rewrite filter_cons, decide_False by assumption. exact IH.
Qed.

Lemma filter_eq_NoDup (c : nat) (l : list nat) :
  NoDup l -> c ∈ l -> filter (fun x => x = c) l = [c].
Proof.
  induction 1 as [|x l Hx Hnd IH]; intros Hin; [inversion Hin|].
  rewrite filter_cons. destruct (decide (x = c)) as [->|Hne].
  - f_equal. apply filter_none, Forall_forall. intros y Hy ->. contradiction.
  - apply IH. apply elem_of_cons in Hin as [->|?]; [contradiction|assumption].
Qed.

Lemma filter_key_NoDup {V} (o : nat) (v : V) (l : list (nat * V)) :
  NoDup l.*1 -> (o, v) ∈ l -> filter (fun kv => kv.1 = o) l = [(o, v)].
Proof.
  induction l as [|[k x] l IH]; intros Hnd Hin; [inversion Hin|].
  rewrite fmap_cons in Hnd. apply NoDup_cons in Hnd as [Hk Hnd]. cbn [fst] in Hk.
  rewrite filter_cons. cbn [fst]. apply elem_of_cons in Hin as [[= <- <-]|Hin].
  - rewrite decide_True by reflexivity. f_equal. apply filter_none, Forall_forall.
    intros [k' x'] Hin' Hk'. cbn [fst] in Hk'. subst k'. apply Hk.
    apply list_elem_of_fmap. exists (o, x'). split; [reflexivity|exact Hin'].
  - assert (k <> o).
    { intros ->. apply Hk. apply list_elem_of_fmap. exists (o, v). split; [reflexivity|exact Hin]. }
    rewrite decide_False by assumption. apply IH; assumption.
Qed.

(** A registry has one entry for a registered observer. *)
Lemma registry_one_entry (m : gmap nat nat) o c :
  m !! o = Some c -> filter (fun kv => kv.1 = o) (map_to_list m) = [(o, c)].
Proof.
  intros H. apply filter_key_NoDup; [apply NoDup_fst_map_to_list|].
  apply elem_of_map_to_list, H.
Qed.

(** C3: after two registerWith calls of an Observer with an Observable,
    in any state the calls of the library can reach, the second call has
    changed nothing; the registry has one entry for the Observer, its
    connection is in the connection list exactly once, and one notify calls
    onNotify of that Observer exactly once, with the notified arguments. *)
Theorem register_twice_one_subscription (ops : list (Obs.Op Args)) (o b : nat) (args : Args) :
  let w1 := Obs.registerWith o b (Obs.run ops Obs.new_World) in
  let w2 := Obs.registerWith o b w1 in
  let this := Obs.observable_at w2 b in
  w2 = w1
  /\ (exists c,
        Obs.connections_ this !! o = Some c
        /\ filter (fun kv => kv.1 = o) (map_to_list (Obs.connections_ this)) = [(o, c)]
        /\ filter (fun x => x = c) (Obs.signal_ this) = [c]
        /\ resolvable (Obs.memory w2) c)
  /\ (exists new,
        Obs.trace (Obs.notify b args w2) = Obs.trace w2 ++ new
        /\ calls_on o new = [(o, args)]).
Proof.
  intros w1 w2 this. assert (w2 = w1) as Hw21 by apply registerWith_twice.
  split; [exact Hw21|].
  assert (consistent w2) as Hw.
  { rewrite Hw21. apply consistent_registerWith, invariant_reachable. }
  assert (is_Some (Obs.connections_ this !! o)) as [c Hc].
  { subst this w2. unfold Obs.registerWith. rewrite observable_at_observers.
    apply registry_register. left. split; reflexivity. }
  destruct (consistent_registered w2 b o c Hw Hc) as (Hin & (cell & Hcell & Hslot) & _).
  split.
  - exists c. split; [exact Hc|]. split; [|split].
    + apply registry_one_entry, Hc.
    + apply filter_eq_NoDup; [apply (c_observable w2 Hw b) | exact Hin].
    + unfold resolvable. rewrite Hcell. eauto.
  - eexists. split; [apply trace_notify, Hw|].
    rewrite (calls_on_emission o b args w2 Hw). fold this. rewrite Hc. reflexivity.
Qed.

(** *** Destruction of an Observer *)

Lemma absent_destroy o w : mirror w -> absent o (Obs.destroy o w).
Proof.
  intros Hm b. rewrite destroy_unregister_all. cbv zeta.
  rewrite observable_at_observers, registry_unregister_all.
  destruct (decide (o = o /\ b ∈ elements (Obs.observables_ w o))) as [_|Hn]; [reflexivity|].
  destruct (Obs.connections_ (Obs.observable_at w b) !! o) as [c|] eqn:E; [|reflexivity].
  exfalso. apply Hn. split; [reflexivity|]. apply elem_of_elements, Hm. rewrite E. eauto.
Qed.

Lemma trace_destroy o w : Obs.trace (Obs.destroy o w) = Obs.trace w.
Proof. rewrite destroy_unregister_all. cbv zeta. apply trace_unregister_all. Qed.

Lemma observables__destroy o w : Obs.observables_ (Obs.destroy o w) o = ∅.
Proof.
  rewrite destroy_unregister_all. cbv zeta. rewrite observables__delete.
  rewrite decide_True by reflexivity. reflexivity.
Qed.

(** A call on another Observer, or a notification, keeps [o] absent and
    adds no call on [o] to the trace. *)
Lemma absent_step o w op :
  consistent w -> absent o w -> Obs.actor op <> Some o ->
  absent o (Obs.step w op)
  /\ exists new, Obs.trace (Obs.step w op) = Obs.trace w ++ new /\ calls_on o new = [].
Proof.
  intros Hw Ha Hop. destruct op as [o' b|o' b|o'|b args]; cbn [Obs.step Obs.actor] in *.
  - split.
    + intros b'. unfold Obs.registerWith. rewrite observable_at_observers.
      destruct (Obs.connections_ _ !! o) as [c|] eqn:E; [|reflexivity].
      assert (is_Some (Obs.connections_
                (Obs.observable_at (Obs.call_Observable (Obs.registerObserver o') b w) b') !! o))
        as H by (rewrite E; eauto).
      apply registry_register in H as [[_ ->]|[c' H]]; [congruence|].
      rewrite Ha in H. discriminate.
    + exists []. rewrite app_nil_r. split; [|reflexivity].
      unfold Obs.registerWith. cbn [Obs.trace]. apply trace_call.
  - split.
    + intros b'. unfold Obs.unregisterWith.
      rewrite observable_at_observers, registry_unregister.
      destruct (decide _); [reflexivity | apply Ha].
    + exists []. rewrite app_nil_r. split; [|reflexivity].
      unfold Obs.unregisterWith. cbn [Obs.trace]. apply trace_call.
  - split.
    + intros b'. rewrite destroy_unregister_all. cbv zeta.
      rewrite observable_at_observers, registry_unregister_all.
      destruct (decide _); [reflexivity | apply Ha].
    + exists []. rewrite app_nil_r. split; [apply trace_destroy | reflexivity].
  - split.
    + intros b'. rewrite (notify_spec b args w Hw), observable_at_insert.
      destruct (decide (b' = b)) as [->|]; apply Ha.
    + eexists. split; [apply trace_notify, Hw|].
      rewrite (calls_on_emission o b args w Hw), Ha. reflexivity.
Qed.

Lemma absent_run o ops w :
  consistent w -> absent o w -> Forall (fun op => Obs.actor op <> Some o) ops ->
  exists new, Obs.trace (Obs.run ops w) = Obs.trace w ++ new /\ calls_on o new = [].
Proof.
  intros Hw Ha Hops. revert w Hw Ha.
  induction Hops as [|op ops Hop _ IH]; intros w Hw Ha.
  - exists []. rewrite app_nil_r. split; reflexivity.
  - destruct (absent_step o w op Hw Ha Hop) as (Ha' & new1 & Ht1 & Hn1).
    destruct (IH (Obs.step w op) (consistent_step w op Hw) Ha') as (new2 & Ht2 & Hn2).
    exists (new1 ++ new2). split.
    + change (Obs.run (op :: ops) w) with (Obs.run ops (Obs.step w op)).
      rewrite Ht2, Ht1, app_assoc. reflexivity.
    + rewrite calls_on_app, Hn1, Hn2. reflexivity.
Qed.

(** C4: when an Observer is destroyed, in any state the calls of the
    library can reach, its destructor leaves no registry entry for it in any
    Observable and makes no call of onNotify; whatever calls follow on other
    Observers and whatever notifications follow, none of them calls onNotify
    of the destroyed Observer. *)
Theorem destroyed_observer_is_never_notified
    (ops : list (Obs.Op Args)) (o : nat) (later : list (Obs.Op Args)) :
  Forall (fun op => Obs.actor op <> Some o) later ->
  let w := Obs.run ops Obs.new_World in
  let w' := Obs.destroy o w in
  (forall b, Obs.connections_ (Obs.observable_at w' b) !! o = None)
  /\ Obs.observables_ w' o = ∅
  /\ Obs.trace w' = Obs.trace w
  /\ exists new,
       Obs.trace (Obs.run later w') = Obs.trace w' ++ new /\ calls_on o new = [].
Proof.
  intros Hlater w w'. destruct (invariant_reachable ops) as [Hw Hm].
  assert (absent o w') as Ha by apply absent_destroy, Hm.
  split; [exact Ha|]. split; [apply observables__destroy|]. split; [apply trace_destroy|].
  apply absent_run; [apply consistent_destroy, Hw | exact Ha | exact Hlater].
Qed.

End ObserverFacts.

Lemma destroyed_observer_is_never_notified_witness :
  Forall (fun op : Obs.Op nat => Obs.actor op <> Some 1%nat) [Obs.Notify 7%nat 5%nat]
  /\ exists new,
       Obs.trace (Obs.run [Obs.Notify 7%nat 5%nat]
                    (Obs.destroy 1%nat
                       (Obs.run [Obs.RegisterWith 1%nat 7%nat; Obs.RegisterWith 2%nat 7%nat]
                                Obs.new_World)))
       = Obs.trace (Obs.destroy 1%nat
                      (Obs.run [Obs.RegisterWith 1%nat 7%nat; Obs.RegisterWith 2%nat 7%nat]
                               Obs.new_World)) ++ new
       /\ Notions.calls_on 1%nat new = [].
Proof.
  assert (Forall (fun op : Obs.Op nat => Obs.actor op <> Some 1%nat) [Obs.Notify 7%nat 5%nat]) as H
    by (constructor; [discriminate | constructor]).
  split; [exact H|].
  apply (destroyed_observer_is_never_notified
           [Obs.RegisterWith 1%nat 7%nat; Obs.RegisterWith 2%nat 7%nat] 1%nat
           [Obs.Notify 7%nat 5%nat] H).
Defined.

(** C5: unregistering an Observer that has no registry entry, registering
    one that has an entry, and disconnecting a handle whose block is not in
    the connection list, such as the handle another Signal has just returned,
    return the Observable, the connection list and the memory unchanged; none
    of the three can throw. *)
Theorem unknown_or_repeated_requests_change_nothing :
  (forall o this (mem : Sig.Memory nat),
      Obs.connections_ this !! o = None -> Obs.unregisterObserver o this mem = (this, mem))
  /\ (forall o this (mem : Sig.Memory nat),
        is_Some (Obs.connections_ this !! o) -> Obs.registerObserver o this mem = (this, mem))
  /\ (forall Slot (c : nat) (sig : list nat) (mem : Sig.Memory Slot),
        c ∉ sig -> Sig.disconnect (Some c) sig mem = sig)
  /\ (forall Slot (slot : Slot) (sig other : list nat) (mem : Sig.Memory Slot),
        Notions.allocated mem sig ->
        Sig.disconnect (Some (Sig.connect slot other mem).1.1) sig
                       (Sig.connect slot other mem).2 = sig).
Proof.
  split; [intros; apply unregisterObserver_unregistered; assumption|].
  split; [intros o this mem [c H]; apply (registerObserver_registered _ _ _ _ H)|].
  split; [intros; apply disconnect_untracked; assumption|].
  intros Slot slot sig other mem H. rewrite connect_fresh. cbn [fst snd].
  apply disconnect_untracked, allocated_not_fresh, H.
Qed.

Lemma unknown_or_repeated_requests_change_nothing_witness :
  Obs.unregisterObserver 3%nat (Obs.mk_Observable [0%nat] {[1%nat := 0%nat]})
                         (Sig.mk_Memory {[0%nat := Sig.mk_Cell 1%nat 1]} 1%nat)
  = (Obs.mk_Observable [0%nat] {[1%nat := 0%nat]},
     Sig.mk_Memory {[0%nat := Sig.mk_Cell 1%nat 1]} 1%nat)
  /\ Obs.registerObserver 1%nat (Obs.mk_Observable [0%nat] {[1%nat := 0%nat]})
                          (Sig.mk_Memory {[0%nat := Sig.mk_Cell 1%nat 1]} 1%nat)
     = (Obs.mk_Observable [0%nat] {[1%nat := 0%nat]},
        Sig.mk_Memory {[0%nat := Sig.mk_Cell 1%nat 1]} 1%nat)
  /\ Sig.disconnect (Some 5%nat) [0%nat] (Sig.mk_Memory {[0%nat := Sig.mk_Cell 1%nat 1]} 1%nat)
     = [0%nat].
Proof.
  split; [|split].
  - apply (proj1 unknown_or_repeated_requests_change_nothing). reflexivity.
  - apply (proj1 (proj2 unknown_or_repeated_requests_change_nothing)).
    exists 0%nat. reflexivity.
  - apply (proj1 (proj2 (proj2 unknown_or_repeated_requests_change_nothing))).
    intros H. apply list_elem_of_singleton in H. discriminate.
Defined.

(** ** ObservableValue *)
Section ObservableValueFacts.
Context {T : Type} (ne : T -> T -> bool).
Import Notions.

(** C1: [set] stores the new value exactly when it differs from the stored
    one under the value type's [!=], and then notifies in either case: the
    resulting state is that of one notify of the stored value, which calls
    every registered Observer once with that value, also when nothing was
    stored. *)
Theorem set_stores_if_different_and_always_notifies
    (ops : list (Obs.Op T)) (value : T) (this : OV.ObservableValue) :
  let w := Obs.run ops Obs.new_World in
  let this' := (OV.set ne value this w).1 in
  let w' := (OV.set ne value this w).2 in
  OV.value_ this' = (if ne value (OV.value_ this) then value else OV.value_ this)
  /\ OV.base this' = OV.base this
  /\ w' = Obs.notify (OV.base this) (OV.value_ this') w
  /\ exists new,
       Obs.trace w' = Obs.trace w ++ new
       /\ forall o,
            calls_on o new
            = match Obs.connections_ (Obs.observable_at w (OV.base this)) !! o with
              | Some _ => [(o, OV.value_ this')]
              | None => []
              end.
Proof.
  intros w this' w'. destruct (invariant_reachable ops) as [Hw _]. fold w in Hw.
  assert (OV.base this' = OV.base this) as Hb
    by (subst this'; unfold OV.set; cbn [fst]; destruct (ne _ _); reflexivity).
  split; [subst this'; unfold OV.set; cbn [fst]; destruct (ne _ _); reflexivity|].
  split; [exact Hb|].
  assert (w' = Obs.notify (OV.base this) (OV.value_ this') w) as Hw'.
  { subst w' this'. unfold OV.set. cbn [fst snd]. destruct (ne _ _); reflexivity. }
  split; [exact Hw'|].
  eexists. split; [rewrite Hw'; apply trace_notify, Hw|].
  intros o. apply calls_on_emission, Hw.
Qed.

End ObservableValueFacts.

(** ** Day counts and civil dates *)
Section RoundTrip.
Import Chrono Calendar.

Lemma era_floor_days z : (if 0 <=? z then z else z - 146096) ÷ 146097 = z / 146097.
Proof.
  destruct (Z.leb_spec 0 z).
  - apply Z.quot_div_nonneg; lia.
  - Z.to_euclidean_division_equations. lia.
Qed.

(** The civil date of a day count, with the divisions as floor divisions and
    the year not yet stored in a short. *)
Lemma civil_from_days_closed z :
  let doe := (z + 719468) mod 146097 in
  let yoe := (doe - doe / 1460 + doe / 36524 - doe / 146096) / 365 in
  let doy := doe - (365 * yoe + yoe / 4 - yoe / 100) in
  let mp := (5 * doy + 2) / 153 in
  let m := if mp <? 10 then mp + 3 else mp - 9 in
  civil_from_days z
  = mk_ymd (wrap16 ((if m <=? 2 then 1 else 0) + yoe + (z + 719468) / 146097 * 400))
           m (doy - (153 * mp + 2) / 5 + 1).
Proof.
  intros doe yoe doy mp m. unfold civil_from_days. rewrite era_floor_days.
  assert (Hdoe : z + 719468 - (z + 719468) / 146097 * 146097 = doe)
    by (subst doe; Z.to_euclidean_division_equations; lia).
  rewrite Hdoe.
  assert (0 <= doe < 146097) by (subst doe; apply Z.mod_pos_bound; lia).
  rewrite !(Z.quot_div_nonneg doe) by lia.
  assert (0 <= doe - doe / 1460 + doe / 36524 - doe / 146096)
    by (Z.to_euclidean_division_equations; lia).
  rewrite (Z.quot_div_nonneg (doe - doe / 1460 + doe / 36524 - doe / 146096)) by lia.
  fold yoe.
  assert (0 <= yoe <= 399) by (subst yoe; Z.to_euclidean_division_equations; lia).
  rewrite !(Z.quot_div_nonneg yoe) by lia. fold doy.
  assert (0 <= doy <= 365) by (subst doy yoe; Z.to_euclidean_division_equations; lia).
  rewrite (Z.quot_div_nonneg (5 * doy + 2)) by lia. fold mp.
  assert (0 <= mp <= 11) by (subst mp; Z.to_euclidean_division_equations; lia).
  rewrite (Z.quot_div_nonneg (153 * mp + 2)) by lia. fold m.
  f_equal. f_equal. destruct (m <=? 2); lia.
Qed.

(** The civil date computed for a day count is a date of the calendar whose
    day count is the given one. *)
Lemma civil_from_days_sound z :
  let doe := (z + 719468) mod 146097 in
  let yoe := (doe - doe / 1460 + doe / 36524 - doe / 146096) / 365 in
  let doy := doe - (365 * yoe + yoe / 4 - yoe / 100) in
  let mp := (5 * doy + 2) / 153 in
  let m := if mp <? 10 then mp + 3 else mp - 9 in
  let y := (if m <=? 2 then 1 else 0) + yoe + (z + 719468) / 146097 * 400 in
  let d := doy - (153 * mp + 2) / 5 + 1 in
  1 <= m <= 12 /\ 1 <= d <= last_day y m /\ days_from_civil y m d = z.
Proof.
  intros doe yoe doy mp m y d.
  assert (Hdoe : 0 <= doe < 146097) by (subst doe; apply Z.mod_pos_bound; lia).
  assert (Hz : z + 719468 = (z + 719468) / 146097 * 146097 + doe)
    by (subst doe; Z.to_euclidean_division_equations; lia).
  set (era := (z + 719468) / 146097) in *.
  assert (Hyoe : 0 <= yoe <= 399 /\ 0 <= doy /\ doy <= 365 /\
          (doy = 365 -> (yoe + 1) mod 4 = 0
                        /\ ((yoe + 1) mod 100 <> 0 \/ (yoe + 1) mod 400 = 0)))
    by (subst doy yoe; Z.to_euclidean_division_equations; lia).
  destruct Hyoe as (Hyoe & Hdoy0 & Hdoy1 & Hleap).
  assert (Hmp : 0 <= mp <= 11) by (subst mp; Z.to_euclidean_division_equations; lia).
  assert (Hmdef : mp < 10 /\ m = mp + 3 \/ 10 <= mp /\ m = mp - 9)
    by (unfold m; destruct (Z.ltb_spec mp 10); lia).
  assert (Hm : 1 <= m <= 12) by lia.
  assert (Hmp' : (if 2 <? m then m - 3 else m + 9) = mp)
    by (destruct (Z.ltb_spec 2 m); lia).
  assert (Hy' : (if m <=? 2 then y - 1 else y) = yoe + era * 400)
    by (unfold y; destruct (m <=? 2); lia).
  split; [exact Hm|]. split.
  - assert (1 <= d /\ (mp <= 10 -> d <= 30 \/ d = 31 /\ (mp = 0 \/ mp = 2 \/ mp = 4 \/ mp = 5 \/ mp = 7 \/ mp = 9 \/ mp = 10))
            /\ (mp = 11 -> d <= 28 \/ d = 29 /\ doy = 365))
      as (Hd1 & Hd2 & Hd3)
      by (subst d mp; Z.to_euclidean_division_equations; lia).
    split; [exact Hd1|].
    destruct (Z.eq_dec mp 11) as [E|E].
    + assert (m = 2) as Hm2 by lia.
      assert (y = yoe + 1 + era * 400) as Hy by (unfold y; rewrite Hm2; cbn; lia).
      rewrite Hm2. unfold last_day. change (2 =? 2) with true. cbv iota.
      destruct (Hd3 E) as [?|[-> Hd]]; [destruct (is_leap y); lia|].
      destruct (Hleap Hd) as [H4 H100].
      replace (is_leap y) with true; [lia|]. symmetry. apply is_leap_true.
      rewrite Hy. clear - H4 H100 Hyoe. Z.to_euclidean_division_equations; lia.
    + destruct (last_day_cases y m Hm) as [[_ Hm2]|[[-> Hc]|[-> Hc]]].
      * exfalso. lia.
      * assert (mp = 1 \/ mp = 3 \/ mp = 6 \/ mp = 8) by lia. lia.
      * lia.
  - rewrite days_from_civil_closed by exact Hm. rewrite Hy', Hmp'.
    unfold march_days.
    assert (doe = yoe * 365 + yoe / 4 - yoe / 100 + doy) by (subst doy; lia).
    assert ((153 * mp + 2) / 5 + d - 1 = doy) by (subst d; lia).
    assert ((yoe + era * 400) / 4 = yoe / 4 + era * 100
            /\ (yoe + era * 400) / 100 = yoe / 100 + era * 4
            /\ (yoe + era * 400) / 400 = era)
      as (-> & -> & ->) by (clear - Hyoe; Z.to_euclidean_division_equations; lia).
    lia.
Qed.

Lemma sys_days_range x : ok x = true -> min_serial <= sys_days x <= max_serial.
Proof.
  destruct x as [y m d]. intros H. pose proof H as H'. apply ok_true in H' as (Hy & Hm & Hd).
  unfold sys_days, min_serial, max_serial. cbn [ymd_year ymd_month ymd_day].
  pose proof (year_bounds y m d Hm Hd) as [Hlo Hhi].
  pose proof (year_start_mono (-32767) y). pose proof (year_start_mono (y + 1) 32768).
  assert (days_from_civil 32768 1 1 = days_from_civil 32767 12 31 + 1) by reflexivity.
  lia.
Qed.

(** Within the years of [std::chrono::year] the civil date of a day count is
    valid and has that day count. *)
Lemma civil_from_days_valid z :
  min_serial <= z <= max_serial ->
  ok (civil_from_days z) = true /\ sys_days (civil_from_days z) = z.
Proof.
  intros Hz. rewrite civil_from_days_closed. cbv zeta.
  destruct (civil_from_days_sound z) as (Hm & Hd & Hdfc). cbv zeta in Hm, Hd, Hdfc.
  set (doe := (z + 719468) mod 146097) in *.
  set (yoe := (doe - doe / 1460 + doe / 36524 - doe / 146096) / 365) in *.
  set (doy := doe - (365 * yoe + yoe / 4 - yoe / 100)) in *.
  set (mp := (5 * doy + 2) / 153) in *.
  set (m := if mp <? 10 then mp + 3 else mp - 9) in *.
  set (y := (if m <=? 2 then 1 else 0) + yoe + (z + 719468) / 146097 * 400) in *.
  set (d := doy - (153 * mp + 2) / 5 + 1) in *.
  pose proof (year_bounds y m d Hm Hd) as [Hlo Hhi]. rewrite Hdfc in Hlo, Hhi.
  assert (-32767 <= y <= 32767) as Hy.
  { unfold min_serial, max_serial in Hz. split.
    - destruct (Z.le_gt_cases (-32767) y); [assumption|].
      pose proof (year_start_mono (y + 1) (-32767)). lia.
    - destruct (Z.le_gt_cases y 32767); [assumption|].
      pose proof (year_start_mono 32768 y).
      assert (days_from_civil 32768 1 1 = days_from_civil 32767 12 31 + 1) by reflexivity.
      lia. }
  rewrite wrap16_id by lia. split; [apply ok_true; lia|exact Hdfc].
Qed.

(** Round trip: the civil date of the day count of a valid date is that date. *)
Lemma civil_from_days_sys_days x : ok x = true -> civil_from_days (sys_days x) = x.
Proof.
  intros Hx. destruct (civil_from_days_valid (sys_days x) (sys_days_range x Hx)) as [Hok Heq].
  apply (sys_days_inj _ _ Hok Hx), Heq.
Qed.

End RoundTrip.

(** ** Date arithmetic *)
Section DateArithmetic.
Import Chrono Calendar DateM Notions.

(** The valid Dates are those the constructor returns. *)
Lemma valid_Date_ctor this :
  valid_Date this <->
  Date_ctor (ymd_year (year_month_day_ this)) (ymd_month (year_month_day_ this))
            (ymd_day (year_month_day_ this)) = Returns this.
Proof.
  destruct this as [l [y m d] s]. unfold valid_Date. cbn [mtx_ year_month_day_ serial_number_ ymd_year ymd_month ymd_day].
  split.
  - intros (-> & Hok & ->). rewrite (Date_ctor_ok _ _ _ Hok). reflexivity.
  - intros H. apply Date_ctor_Returns in H as [Hok [= -> ->]]. auto.
Qed.

Lemma add_assign_Months_unlocked this n :
  mtx_ this = false ->
  add_assign_Months this n
  = x ← adjust (plus_months (year_month_day_ this) n);
    Returns (mk_Date false x (sys_days x)).
Proof.
  intros H. unfold add_assign_Months, lock_guard. rewrite H.
  destruct (adjust _); reflexivity.
Qed.

Lemma add_assign_Years_unlocked this n :
  mtx_ this = false ->
  add_assign_Years this n
  = x ← adjust (plus_years (year_month_day_ this) n);
    Returns (mk_Date false x (sys_days x)).
Proof.
  intros H. unfold add_assign_Years, lock_guard. rewrite H.
  destruct (adjust _); reflexivity.
Qed.

Lemma add_assign_Months_valid y0 m0 d0 s months :
  ok (mk_ymd y0 m0 d0) = true ->
  -32767 <= y0 + (m0 - 1 + months) / 12 <= 32767 ->
  add_assign_Months (mk_Date false (mk_ymd y0 m0 d0) s) months
  = Date_ctor (y0 + (m0 - 1 + months) / 12) ((m0 - 1 + months) mod 12 + 1)
      (Z.min d0 (last_day (y0 + (m0 - 1 + months) / 12) ((m0 - 1 + months) mod 12 + 1)))
  /\ ok (mk_ymd (y0 + (m0 - 1 + months) / 12) ((m0 - 1 + months) mod 12 + 1)
        (Z.min d0 (last_day (y0 + (m0 - 1 + months) / 12) ((m0 - 1 + months) mod 12 + 1))))
     = true.
Proof.
  intros Hok. set (i := m0 - 1 + months). set (y := y0 + i / 12). set (m := i mod 12 + 1).
  intros Hy.
  assert (1 <= m <= 12) as Hm by (unfold m; pose proof (Z.mod_pos_bound i 12); lia).
  apply ok_true in Hok as (_ & _ & Hd0).
  destruct (adjust_clamps y m d0) as [Hadj Hok2]; [lia|lia|lia|].
  split; [|exact Hok2].
  rewrite add_assign_Months_unlocked by reflexivity.
  unfold plus_months. cbn [year_month_day_ ymd_year ymd_month ymd_day]. fold i. fold y m.
  rewrite wrap16_id by lia. rewrite Hadj, (Date_ctor_ok _ _ _ Hok2). reflexivity.
Qed.

Lemma add_assign_Years_valid y0 m0 d0 s years :
  ok (mk_ymd y0 m0 d0) = true ->
  -32767 <= y0 + years <= 32767 ->
  add_assign_Years (mk_Date false (mk_ymd y0 m0 d0) s) years
  = Date_ctor (y0 + years) m0 (Z.min d0 (last_day (y0 + years) m0))
  /\ ok (mk_ymd (y0 + years) m0 (Z.min d0 (last_day (y0 + years) m0))) = true.
Proof.
  intros Hok Hy. apply ok_true in Hok as (_ & Hm0 & Hd0).
  destruct (adjust_clamps (y0 + years) m0 d0) as [Hadj Hok2]; [lia|lia|lia|].
  split; [|exact Hok2].
  rewrite add_assign_Years_unlocked by reflexivity.
  unfold plus_years. cbn [year_month_day_ ymd_year ymd_month ymd_day].
  rewrite wrap16_id by lia. rewrite Hadj, (Date_ctor_ok _ _ _ Hok2). reflexivity.
Qed.

Lemma plus_Years_unlocked y0 m0 d0 s years :
  plus_Years (mk_Date false (mk_ymd y0 m0 d0) s) years
  = add_assign_Years (mk_Date false (mk_ymd y0 m0 d0) s) years.
Proof.
  unfold plus_Years, Date_copy, operator_assign. cbn [mtx_ blank orb mbind Outcome_bind].
  rewrite !add_assign_Years_unlocked by reflexivity. reflexivity.
Qed.

(** X1: [+= Months] moves a valid Date to the month [months] later, keeps the
    day when that month has it and otherwise takes the month's last day; the
    result is the Date the constructor builds for that triple. *)
Theorem add_assign_Months_clamps (this : Date) (months : Z) :
  valid_Date this ->
  let x := year_month_day_ this in
  let i := ymd_month x - 1 + months in
  let y := ymd_year x + i / 12 in
  let m := i mod 12 + 1 in
  -32767 <= y <= 32767 ->
  add_assign_Months this months = Date_ctor y m (Z.min (ymd_day x) (last_day y m))
  /\ sub_assign_Months this (- months) = add_assign_Months this months
  /\ exists d, add_assign_Months this months = Returns d /\ valid_Date d.
Proof.
  destruct this as [l [y0 m0 d0] s]. intros (Hl & Hok & Hs).
  cbn [mtx_ year_month_day_ serial_number_ ymd_year ymd_month ymd_day] in *. subst l.
  set (i := m0 - 1 + months). set (y := y0 + i / 12). set (m := i mod 12 + 1). intros Hy.
  assert (1 <= m <= 12) as Hm by (unfold m; pose proof (Z.mod_pos_bound i 12); lia).
  pose proof Hok as Hok'. apply ok_true in Hok' as (_ & _ & Hd0).
  destruct (adjust_clamps y m d0) as [Hadj Hok2]; [lia|lia|lia|].
  assert (add_assign_Months (mk_Date false (mk_ymd y0 m0 d0) s) months
          = Date_ctor y m (Z.min d0 (last_day y m))) as Heq.
  { rewrite add_assign_Months_unlocked by reflexivity.
    unfold plus_months. cbn [year_month_day_ ymd_year ymd_month ymd_day]. fold i. fold y m.
    rewrite wrap16_id by lia. rewrite Hadj, (Date_ctor_ok _ _ _ Hok2). reflexivity. }
  split; [exact Heq|]. split.
  - unfold sub_assign_Months, add_assign_Months. rewrite Z.opp_involutive. reflexivity.
  - rewrite Heq, (Date_ctor_ok _ _ _ Hok2). eexists. split; [reflexivity|].
    repeat split; assumption.
Qed.

Lemma add_assign_Months_clamps_witness :
  valid_Date (mk_Date false (mk_ymd 2023 1 31) 19388)
  /\ add_assign_Months (mk_Date false (mk_ymd 2023 1 31) 19388) 13
     = Date_ctor 2024 2 29.
Proof.
  assert (valid_Date (mk_Date false (mk_ymd 2023 1 31) 19388)) as H
    by (repeat split; reflexivity).
  split; [exact H|].
  apply (add_assign_Months_clamps (mk_Date false (mk_ymd 2023 1 31) 19388) 13 H).
  vm_compute. split; discriminate.
Defined.

(** X2: [+= Years] keeps month and day of a valid Date, except that 29 February
    becomes 28 February in a year that is not a leap year. *)
Theorem add_assign_Years_clamps (this : Date) (years : Z) :
  valid_Date this ->
  let x := year_month_day_ this in
  let y := ymd_year x + years in
  -32767 <= y <= 32767 ->
  add_assign_Years this years
  = Date_ctor y (ymd_month x)
      (if (ymd_month x =? 2) && (ymd_day x =? 29) && negb (is_leap y) then 28 else ymd_day x)
  /\ sub_assign_Years this (- years) = add_assign_Years this years
  /\ exists d, add_assign_Years this years = Returns d /\ valid_Date d.
Proof.
  destruct this as [l [y0 m0 d0] s]. intros (Hl & Hok & Hs).
  cbn [mtx_ year_month_day_ serial_number_ ymd_year ymd_month ymd_day] in *. subst l.
  set (y := y0 + years). intros Hy.
  pose proof Hok as Hok'. apply ok_true in Hok' as (_ & Hm0 & Hd0).
  assert (Z.min d0 (last_day y m0)
          = if (m0 =? 2) && (d0 =? 29) && negb (is_leap y) then 28 else d0) as Hmin.
  { destruct (Z.eqb_spec m0 2) as [->|Hne]; cbn [andb].
    - unfold last_day in *. change (2 =? 2) with true in *. cbv iota in *. cbn [andb].
      destruct (Z.eqb_spec d0 29); destruct (is_leap y), (is_leap y0); cbn [negb andb]; lia.
    - assert (last_day y m0 = last_day y0 m0) as ->; [|lia].
      unfold last_day. rewrite (proj2 (Z.eqb_neq m0 2)) by assumption. reflexivity. }
  destruct (adjust_clamps y m0 d0) as [Hadj Hok2]; [lia|lia|lia|].
  assert (add_assign_Years (mk_Date false (mk_ymd y0 m0 d0) s) years
          = Date_ctor y m0 (Z.min d0 (last_day y m0))) as Heq.
  { rewrite add_assign_Years_unlocked by reflexivity.
    unfold plus_years. cbn [year_month_day_ ymd_year ymd_month ymd_day]. fold y.
    rewrite wrap16_id by lia. rewrite Hadj, (Date_ctor_ok _ _ _ Hok2). reflexivity. }
  split; [rewrite Heq, Hmin; reflexivity|]. split.
  - unfold sub_assign_Years, add_assign_Years. rewrite Z.opp_involutive. reflexivity.
  - rewrite Heq, (Date_ctor_ok _ _ _ Hok2). eexists. split; [reflexivity|].
    repeat split; assumption.
Qed.

Lemma add_assign_Years_clamps_witness :
  valid_Date (mk_Date false (mk_ymd 2024 2 29) 19782)
  /\ add_assign_Years (mk_Date false (mk_ymd 2024 2 29) 19782) 1 = Date_ctor 2025 2 28.
Proof.
  assert (valid_Date (mk_Date false (mk_ymd 2024 2 29) 19782)) as H
    by (repeat split; reflexivity).
  split; [exact H|].
  apply (add_assign_Years_clamps (mk_Date false (mk_ymd 2024 2 29) 19782) 1 H).
  vm_compute. split; discriminate.
Defined.

(** X3: the binary [+] and [-] for Years copy the Date without holding its
    lock, so unlike those for Months and Days they return: the result is
    what the compound assignment gives, and the operand is not changed. *)
Theorem plus_Years_returns_clamped (this : Date) (years : Z) :
  valid_Date this ->
  let x := year_month_day_ this in
  let y := ymd_year x + years in
  -32767 <= y <= 32767 ->
  plus_Years this years
  = Date_ctor y (ymd_month x) (Z.min (ymd_day x) (last_day y (ymd_month x)))
  /\ minus_Years this (- years) = plus_Years this years
  /\ plus_Years this years = add_assign_Years this years.
Proof.
  destruct this as [l [y0 m0 d0] s]. intros (Hl & Hok & Hs).
  cbn [mtx_ year_month_day_ serial_number_ ymd_year ymd_month ymd_day] in *. subst l.
  set (y := y0 + years). intros Hy.
  pose proof Hok as Hok'. apply ok_true in Hok' as (_ & Hm0 & Hd0).
  destruct (adjust_clamps y m0 d0) as [Hadj Hok2]; [lia|lia|lia|].
  assert (plus_Years (mk_Date false (mk_ymd y0 m0 d0) s) years
          = add_assign_Years (mk_Date false (mk_ymd y0 m0 d0) s) years) as Hplus.
  { unfold plus_Years, Date_copy, operator_assign. cbn [mtx_ blank orb mbind Outcome_bind].
    rewrite !add_assign_Years_unlocked by reflexivity. reflexivity. }
  split; [|split; [|exact Hplus]].
  - rewrite Hplus, add_assign_Years_unlocked by reflexivity.
    unfold plus_years. cbn [year_month_day_ ymd_year ymd_month ymd_day]. fold y.
    rewrite wrap16_id by lia. rewrite Hadj, (Date_ctor_ok _ _ _ Hok2). reflexivity.
  - unfold minus_Years, plus_Years, sub_assign_Years, add_assign_Years.
    rewrite Z.opp_involutive. reflexivity.
Qed.

Lemma plus_Years_returns_clamped_witness :
  valid_Date (mk_Date false (mk_ymd 2023 1 1) 19358)
  /\ plus_Years (mk_Date false (mk_ymd 2023 1 1) 19358) 3 = Date_ctor 2026 1 1.
Proof.
  assert (valid_Date (mk_Date false (mk_ymd 2023 1 1) 19358)) as H
    by (repeat split; reflexivity).
  split; [exact H|].
  apply (plus_Years_returns_clamped (mk_Date false (mk_ymd 2023 1 1) 19358) 3 H).
  vm_compute. split; discriminate.
Defined.

(** X4: adding years past the last year of [std::chrono::year] is not
    refused: the year wraps to -32768, the day is overwritten by the last day
    of the month, and the Date returned is one the constructor rejects. *)
Theorem add_assign_Years_past_last_year (this : Date) (years : Z) :
  valid_Date this ->
  ymd_year (year_month_day_ this) + years = 32768 ->
  let m := ymd_month (year_month_day_ this) in
  (exists serial,
     add_assign_Years this years
     = Returns (mk_Date false (mk_ymd (-32768) m (last_day (-32768) m)) serial))
  /\ ok (mk_ymd (-32768) m (last_day (-32768) m)) = false
  /\ Date_ctor (-32768) m (last_day (-32768) m) = Throws "Invalid date.".
Proof.
  destruct this as [l [y0 m0 d0] s]. intros (Hl & Hok & Hs).
  cbn [mtx_ year_month_day_ serial_number_ ymd_year ymd_month ymd_day] in *. subst l.
  intros Hy. cbv zeta.
  pose proof Hok as Hok'. apply ok_true in Hok' as (_ & Hm0 & Hd0).
  assert (forall d, ok (mk_ymd (-32768) m0 d) = false) as Hbad.
  { intros d. apply not_true_iff_false. rewrite ok_true. lia. }
  split; [|split; [apply Hbad | apply Date_ctor_not_ok, Hbad]].
  rewrite add_assign_Years_unlocked by reflexivity.
  unfold plus_years. cbn [year_month_day_ ymd_year ymd_month ymd_day]. rewrite Hy.
  change (wrap16 32768) with (-32768). unfold adjust. rewrite Hbad. cbn [negb].
  rewrite lastDayOfMonth_last_day by exact Hm0. eexists. reflexivity.
Qed.

Lemma add_assign_Years_past_last_year_witness :
  valid_Date (mk_Date false (mk_ymd 32767 1 15) 11248387)
  /\ exists serial,
       add_assign_Years (mk_Date false (mk_ymd 32767 1 15) 11248387) 1
       = Returns (mk_Date false (mk_ymd (-32768) 1 31) serial).
Proof.
  assert (valid_Date (mk_Date false (mk_ymd 32767 1 15) 11248387)) as H
    by (repeat split; reflexivity).
  split; [exact H|].
  apply (add_assign_Years_past_last_year (mk_Date false (mk_ymd 32767 1 15) 11248387) 1 H).
  reflexivity.
Defined.

(** X5: [operator+(const Days&)] and [operator-(const Days&)] lock [*this] and
    then copy it, which locks the same mutex again: they return for no
    operand. *)
Theorem plus_Days_relocks_mutex (this : Date) (days : Z) :
  plus_Days this days = Undefined Relock /\ minus_Days this days = Undefined Relock.
Proof.
  unfold plus_Days, minus_Days, lock_guard. destruct (mtx_ this); split; reflexivity.
Qed.

Lemma add_assign_Days_unlocked this n :
  mtx_ this = false ->
  add_assign_Days this n
  = Returns (mk_Date false (civil_from_days (sys_days (year_month_day_ this) + n))
               (sys_days (civil_from_days (sys_days (year_month_day_ this) + n)))).
Proof. intros H. unfold add_assign_Days, lock_guard. rewrite H. reflexivity. Qed.

Lemma sub_assign_Days_unlocked this n :
  mtx_ this = false ->
  sub_assign_Days this n
  = Returns (mk_Date false (civil_from_days (sys_days (year_month_day_ this) - n))
               (sys_days (civil_from_days (sys_days (year_month_day_ this) - n)))).
Proof. intros H. unfold sub_assign_Days, lock_guard. rewrite H. reflexivity. Qed.

(** X6: [+= Days] moves a valid Date by that many days: within the years of
    [std::chrono::year] the result is a valid Date whose serial number is the
    old one plus the days, and [-=] of the same days gives the first Date
    back. *)
Theorem add_assign_Days_shifts_serial (this : Date) (days : Z) :
  valid_Date this ->
  min_serial <= serial_number_ this + days <= max_serial ->
  exists d,
    add_assign_Days this days = Returns d
    /\ valid_Date d
    /\ serial_number_ d = serial_number_ this + days
    /\ sub_assign_Days d days = Returns this
    /\ sub_assign_Days this (- days) = Returns d.
Proof.
  destruct this as [l x s]. intros (Hl & Hok & Hs).
  cbn [mtx_ year_month_day_ serial_number_] in *. subst l s. intros Hr.
  destruct (civil_from_days_valid _ Hr) as [Hok' Hs'].
  rewrite add_assign_Days_unlocked by reflexivity. cbn [year_month_day_].
  eexists. split; [reflexivity|]. split; [repeat split; assumption|].
  split; [exact Hs'|]. split.
  - rewrite sub_assign_Days_unlocked by reflexivity. cbn [year_month_day_].
    rewrite Hs'. replace (sys_days x + days - days) with (sys_days x) by lia.
    rewrite (civil_from_days_sys_days x Hok). reflexivity.
  - rewrite sub_assign_Days_unlocked by reflexivity. cbn [year_month_day_].
    replace (sys_days x - - days) with (sys_days x + days) by lia. reflexivity.
Qed.

Lemma add_assign_Days_shifts_serial_witness :
  valid_Date (mk_Date false (mk_ymd 2023 12 31) 19722)
  /\ exists d, add_assign_Days (mk_Date false (mk_ymd 2023 12 31) 19722) 60 = Returns d
               /\ valid_Date d /\ serial_number_ d = 19722 + 60.
Proof.
  assert (valid_Date (mk_Date false (mk_ymd 2023 12 31) 19722)) as H
    by (repeat split; reflexivity).
  split; [exact H|].
  destruct (add_assign_Days_shifts_serial (mk_Date false (mk_ymd 2023 12 31) 19722) 60 H)
    as (d & H1 & H2 & H3 & _).
  - vm_compute. split; discriminate.
  - exists d. auto.
Defined.

(** X7: [lastDayOfMonth] returns the calendar's last day of the month for the
    months 1 to 12 and reads outside its twelve-entry table for every other
    month value. *)
Theorem lastDayOfMonth_table (y m d : Z) :
  (1 <= m <= 12 -> lastDayOfMonth (mk_ymd y m d) = Some (last_day y m))
  /\ (~ 1 <= m <= 12 -> lastDayOfMonth (mk_ymd y m d) = None).
Proof.
  split; [apply lastDayOfMonth_last_day | apply lastDayOfMonth_out_of_bounds].
Qed.

(** X8: twelve months are a year: on a valid Date, [+= Months(12 * k)] and
    [+= Years(k)] give the same Date. *)
Theorem add_assign_Months_twelve (this : Date) (k : Z) :
  valid_Date this ->
  -32767 <= ymd_year (year_month_day_ this) + k <= 32767 ->
  add_assign_Months this (12 * k) = add_assign_Years this k.
Proof.
  destruct this as [l [y0 m0 d0] s]. intros (Hl & Hok & Hs).
  cbn [mtx_ year_month_day_ serial_number_ ymd_year ymd_month ymd_day] in *. subst l.
  intros Hy. pose proof Hok as Hok'. apply ok_true in Hok' as (_ & Hm0 & _).
  assert ((m0 - 1 + 12 * k) / 12 = k /\ (m0 - 1 + 12 * k) mod 12 + 1 = m0) as [Hq Hr]
    by (Z.to_euclidean_division_equations; lia).
  destruct (add_assign_Months_valid y0 m0 d0 s (12 * k) Hok) as [-> _];
    [rewrite Hq; exact Hy|].
  destruct (add_assign_Years_valid y0 m0 d0 s k Hok Hy) as [-> _].
  rewrite Hq, Hr. reflexivity.
Qed.

Lemma add_assign_Months_twelve_witness :
  valid_Date (mk_Date false (mk_ymd 2024 2 29) 19782)
  /\ add_assign_Months (mk_Date false (mk_ymd 2024 2 29) 19782) (12 * 1)
     = add_assign_Years (mk_Date false (mk_ymd 2024 2 29) 19782) 1.
Proof.
  assert (valid_Date (mk_Date false (mk_ymd 2024 2 29) 19782)) as H
    by (repeat split; reflexivity).
  split; [exact H|].
  apply (add_assign_Months_twelve (mk_Date false (mk_ymd 2024 2 29) 19782) 1 H).
  vm_compute. split; discriminate.
Defined.





End DateArithmetic.

(** ** Using a Signal *)
Section SignalUse.
Context {Slot Args : Type}.
Import Notions.
Implicit Types (mem : Sig.Memory Slot) (sig : list nat) (trace : Sig.Trace Slot Args).

(** The calls of an emission depend only on the blocks of the list entries. *)
Lemma calls_ext (args : Args) mem mem' sig :
  (forall w, w ∈ sig -> Sig.cells mem' !! w = Sig.cells mem !! w) ->
  calls args mem' sig = calls args mem sig.
Proof.
  induction sig as [|v sig IH]; intros H; [reflexivity|].
  rewrite !calls_cons, H by left. rewrite IH; [reflexivity|].
  intros w Hw. apply H. right. exact Hw.
Qed.

Lemma filter_resolvable_ext mem mem' sig :
  (forall w, w ∈ sig -> Sig.cells mem' !! w = Sig.cells mem !! w) ->
  filter (resolvable mem') sig = filter (resolvable mem) sig.
Proof.
  induction sig as [|v sig IH]; intros H; [reflexivity|].
  rewrite !filter_resolvable_cons, H by left. rewrite IH; [reflexivity|].
  intros w Hw. apply H. right. exact Hw.
Qed.

Lemma calls_app (args : Args) mem sig1 sig2 :
  calls args mem (sig1 ++ sig2) = calls args mem sig1 ++ calls args mem sig2.
Proof.
  induction sig1 as [|v sig1 IH]; [reflexivity|].
  rewrite <- app_comm_cons, !calls_cons, IH. destruct (Sig.cells mem !! v); reflexivity.
Qed.

(** X10: [connect] appends the new connection; the slot connected last is called
    last by the next emission, after the slots that were called before, and
    disconnecting the returned handle gives the connection list back. *)
Theorem connect_calls_last_and_disconnect_undoes
    (slot : Slot) (args : Args) sig mem trace :
  allocated mem sig ->
  let c := (Sig.connect slot sig mem).1.1 in
  let sig' := (Sig.connect slot sig mem).1.2 in
  let mem' := (Sig.connect slot sig mem).2 in
  sig' = sig ++ [c]
  /\ (c ∉ sig)
  /\ Sig.cells mem' !! c = Some (Sig.mk_Cell slot 1)
  /\ Sig.emit args sig' mem' trace
     = (filter (resolvable mem) sig ++ [c], trace ++ calls args mem sig ++ [(slot, args)])
  /\ Sig.disconnect (Some c) sig' mem' = sig
  /\ allocated mem' sig'.
Proof.
  intros Hall. rewrite connect_fresh. cbn [fst snd]. set (c := Sig.fresh mem).
  pose proof (allocated_not_fresh mem sig Hall) as Hc. fold c in Hc.
  set (mem' := Sig.mk_Memory (<[c := Sig.mk_Cell slot 1]> (Sig.cells mem)) (S c)).
  assert (Hsame : forall w, w ∈ sig -> Sig.cells mem' !! w = Sig.cells mem !! w).
  { intros w Hw. cbn [mem' Sig.cells]. apply lookup_insert_ne. intros ->. contradiction. }
  assert (Hnew : Sig.cells mem' !! c = Some (Sig.mk_Cell slot 1)) by apply lookup_insert_eq.
  split; [reflexivity|]. split; [exact Hc|]. split; [exact Hnew|]. split; [|split].
  - rewrite emit_spec, filter_app, calls_app.
    rewrite (filter_resolvable_ext mem mem' sig Hsame), (calls_ext args mem mem' sig Hsame).
    f_equal.
    + f_equal. rewrite filter_resolvable_cons, Hnew. reflexivity.
    + f_equal. f_equal. rewrite calls_cons, Hnew. reflexivity.
  - rewrite disconnect_Some by (unfold resolvable; rewrite Hnew; eauto).
    rewrite filter_app, filter_all.
    + rewrite filter_cons, decide_False by tauto. apply app_nil_r.
    + apply Forall_forall. intros w Hw ->. contradiction.
  - unfold allocated in *. cbn [mem' Sig.fresh]. apply Forall_app. split.
    + eapply Forall_impl; [exact Hall|]. cbn. intros. fold c in H. lia.
    + constructor; [lia|constructor].
Qed.

(** Entries that do not resolve are not called. *)
Lemma calls_filter_resolvable (args : Args) mem sig :
  calls args mem (filter (resolvable mem) sig) = calls args mem sig.
Proof.
  induction sig as [|v sig IH]; [reflexivity|].
  rewrite filter_resolvable_cons, calls_cons.
  destruct (Sig.cells mem !! v) as [cell|] eqn:E; [|exact IH].
  rewrite calls_cons, E, IH. reflexivity.
Qed.

Lemma filter_resolvable_idemp mem sig :
  filter (resolvable mem) (filter (resolvable mem) sig) = filter (resolvable mem) sig.
Proof.
  apply filter_all, Forall_forall. intros w Hw.
  apply list_elem_of_filter in Hw. tauto.
Qed.

(** X11: an emission prunes once: a second emission on the list the first left
    keeps that list as it is and calls the same slots again, in the same
    order, with its own arguments. *)
Theorem emit_twice (args args' : Args) sig mem trace trace' :
  let kept := (Sig.emit args sig mem trace).1 in
  Sig.emit args' kept mem trace' = (kept, trace' ++ calls args' mem sig)
  /\ sublist kept sig
  /\ length (calls args' mem sig) = length kept.
Proof.
  rewrite emit_spec. cbn [fst]. rewrite emit_spec.
  rewrite filter_resolvable_idemp, calls_filter_resolvable.
  split; [reflexivity|]. split; [apply sublist_filter | apply calls_length].
Qed.

(** X12: disconnecting a handle that owns a block removes every entry of that
    block and keeps the other entries in their order; the next emission calls
    the same slots as before except that one. *)
Theorem disconnect_removes_only_that_connection (c : nat) (args : Args) sig mem trace :
  resolvable mem c ->
  let sig' := Sig.disconnect (Some c) sig mem in
  sig' = filter (fun w => w <> c) sig
  /\ (c ∉ sig')
  /\ (forall w, w <> c -> (w ∈ sig' <-> w ∈ sig))
  /\ sublist sig' sig
  /\ (Sig.emit args sig' mem trace).2 = trace ++ calls args mem (filter (fun w => w <> c) sig).
Proof.
  intros Hc. cbv zeta. rewrite (disconnect_Some c sig mem Hc).
  split; [reflexivity|]. split; [|split; [|split]].
  - intros H. apply list_elem_of_filter in H. tauto.
  - intros w Hw. rewrite list_elem_of_filter. tauto.
  - apply sublist_filter.
  - rewrite emit_spec. reflexivity.
Qed.

(** X13: the empty handle equals what every expired weak reference resolves
    to: [disconnect] of it removes exactly the entries that no longer
    resolve, which is the list an emission would leave. *)
Theorem disconnect_empty_handle_purges_expired (args : Args) sig mem trace :
  Sig.disconnect None sig mem = filter (resolvable mem) sig
  /\ Sig.disconnect None sig mem = (Sig.emit args sig mem trace).1
  /\ (Forall (resolvable mem) sig -> Sig.disconnect None sig mem = sig).
Proof.
  rewrite disconnect_None, emit_spec. split; [reflexivity|]. split; [reflexivity|].
  apply filter_all.
Qed.

Lemma cells_release mem c w :
  Sig.cells (Sig.release c mem) !! w
  = if decide (w = c)
    then match Sig.cells mem !! c with
         | Some cell =>
             if (Sig.use_count cell =? 1)%positive then None
             else Some (Sig.mk_Cell (Sig.cell_slot cell) (Pos.pred (Sig.use_count cell)))
         | None => None
         end
    else Sig.cells mem !! w.
Proof.
  destruct (decide (w = c)) as [->|Hne]; [|apply cells_release_ne, Hne].
  unfold Sig.release. destruct (Sig.cells mem !! c) as [cell|] eqn:E; [|exact E].
  destruct (_ =? _)%positive; cbn [Sig.cells];
    [apply lookup_delete_eq | apply lookup_insert_eq].
Qed.

(** X14: dropping the last strong handle of a connection unsubscribes it: the
    next emission does not call its slot and erases its entry, and calls every
    other slot as before.  While another handle owns the block the emission is
    as before the drop. *)
Theorem release_last_owner_unsubscribes (c : nat) (args : Args) sig mem trace cell :
  Sig.cells mem !! c = Some cell ->
  (Sig.use_count cell = 1%positive ->
     Sig.emit args sig (Sig.release c mem) trace
     = (filter (fun w => w <> c) (filter (resolvable mem) sig),
        trace ++ calls args mem (filter (fun w => w <> c) sig)))
  /\ (Sig.use_count cell <> 1%positive ->
       Sig.emit args sig (Sig.release c mem) trace = Sig.emit args sig mem trace).
Proof.
  intros Hc. split; intros Hn; rewrite !emit_spec.
  - assert (Hrel : forall w, Sig.cells (Sig.release c mem) !! w
                             = if decide (w = c) then None else Sig.cells mem !! w).
    { intros w. rewrite cells_release, Hc. apply Pos.eqb_eq in Hn. rewrite Hn. reflexivity. }
    clear Hc Hn. f_equal; [|f_equal]; induction sig as [|v sig IH].
    + reflexivity.
    + rewrite !filter_resolvable_cons, Hrel. destruct (decide (v = c)) as [->|Hne].
      * destruct (Sig.cells mem !! c); [|exact IH].
        rewrite filter_cons, decide_False by tauto. exact IH.
      * destruct (Sig.cells mem !! v); [|exact IH].
        rewrite filter_cons, decide_True by exact Hne. f_equal. exact IH.
    + reflexivity.
    + rewrite calls_cons, Hrel, filter_cons. destruct (decide (v = c)) as [->|Hne].
      * rewrite decide_False by tauto. exact IH.
      * rewrite decide_True by exact Hne. rewrite calls_cons, IH. reflexivity.
  - apply Pos.eqb_neq in Hn.
    assert (Hrel : forall w, (fun cell => Sig.cell_slot cell) <$> Sig.cells (Sig.release c mem) !! w
                             = (fun cell => Sig.cell_slot cell) <$> Sig.cells mem !! w).
    { intros w. rewrite cells_release. destruct (decide (w = c)) as [->|]; [|reflexivity].
      rewrite Hc, Hn. reflexivity. }
    clear Hc Hn. f_equal; [|f_equal]; induction sig as [|v sig IH]; try reflexivity.
    + rewrite !filter_resolvable_cons. specialize (Hrel v).
      destruct (Sig.cells (Sig.release c mem) !! v), (Sig.cells mem !! v);
        try discriminate; rewrite IH; reflexivity.
    + rewrite !calls_cons. specialize (Hrel v).
      destruct (Sig.cells (Sig.release c mem) !! v), (Sig.cells mem !! v);
        try discriminate; rewrite IH; [|reflexivity].
      cbn in Hrel. congruence.
Qed.

End SignalUse.

Lemma connect_calls_last_and_disconnect_undoes_witness :
  let mem := Sig.mk_Memory (∅ : gmap nat (Sig.Cell nat)) 0%nat in
  Notions.allocated mem []
  /\ Sig.disconnect (Some (Sig.connect 9%nat [] mem).1.1)
                    (Sig.connect 9%nat [] mem).1.2 (Sig.connect 9%nat [] mem).2 = [].
Proof.
  intros mem. assert (Notions.allocated mem []) as H by constructor.
  split; [exact H|].
  apply (connect_calls_last_and_disconnect_undoes 9%nat 5%nat [] mem [] H).
Defined.


Lemma disconnect_removes_only_that_connection_witness :
  let mem := Sig.mk_Memory ({[1%nat := Sig.mk_Cell 7%nat 1]} : gmap nat (Sig.Cell nat)) 2%nat in
  Notions.resolvable mem 1%nat
  /\ Sig.disconnect (Some 1%nat) [0%nat; 1%nat] mem
     = filter (fun w => w <> 1%nat) [0%nat; 1%nat].
Proof.
  intros mem. assert (Notions.resolvable mem 1%nat) as H by (eexists; reflexivity).
  split; [exact H|].
  apply (disconnect_removes_only_that_connection 1%nat 5%nat [0%nat; 1%nat] mem [] H).
Defined.

Lemma release_last_owner_unsubscribes_witness :
  let mem := Sig.mk_Memory ({[1%nat := Sig.mk_Cell 7%nat 1]} : gmap nat (Sig.Cell nat)) 2%nat in
  Sig.cells mem !! 1%nat = Some (Sig.mk_Cell 7%nat 1)
  /\ Sig.emit 5%nat [1%nat] (Sig.release 1%nat mem) []
     = (filter (fun w => w <> 1%nat) (filter (Notions.resolvable mem) [1%nat]),
        [] ++ Notions.calls 5%nat mem (filter (fun w => w <> 1%nat) [1%nat])).
Proof.
  intros mem. assert (Sig.cells mem !! 1%nat = Some (Sig.mk_Cell 7%nat 1)) as H by reflexivity.
  split; [exact H|].
  apply (proj1 (release_last_owner_unsubscribes 1%nat 5%nat [1%nat] mem [] _ H)).
  reflexivity.
Defined.

(** ** Using Observers and Observables *)
Section ObservableUse.
Context {Args : Type}.
Import Notions.
Implicit Types (w : Obs.World Args) (mem : Sig.Memory nat).

Lemma unregisterWith_fields o b w :
  Obs.unregisterWith o b w
  = Obs.mk_World (Obs.unregisterObserver o (Obs.observable_at w b) (Obs.memory w)).2
      (<[b := (Obs.unregisterObserver o (Obs.observable_at w b) (Obs.memory w)).1]>
         (Obs.observables w))
      (<[o := Obs.observables_ w o ∖ {[b]}]> (Obs.observers w))
      (Obs.trace w).
Proof.
  unfold Obs.unregisterWith, Obs.call_Observable.
  destruct (Obs.unregisterObserver o (Obs.observable_at w b) (Obs.memory w)); reflexivity.
Qed.

(** X15: registering an Observer that was not registered and unregistering it
    again gives every Observable, every tracked set and the blocks of the
    memory back as they were; only the allocation counter has moved. *)
Theorem register_then_unregister_restores (ops : list (Obs.Op Args)) (o b : nat) :
  let w := Obs.run ops Obs.new_World in
  let w' := Obs.unregisterWith o b (Obs.registerWith o b w) in
  Obs.connections_ (Obs.observable_at w b) !! o = None ->
  (forall b', Obs.observable_at w' b' = Obs.observable_at w b')
  /\ (forall o', Obs.observables_ w' o' = Obs.observables_ w o')
  /\ Sig.cells (Obs.memory w') = Sig.cells (Obs.memory w)
  /\ Sig.fresh (Obs.memory w') = S (Sig.fresh (Obs.memory w))
  /\ Obs.trace w' = Obs.trace w.
Proof.
  intros w w' Hnone. destruct (invariant_reachable ops) as [Hw Hm]. fold w in Hw, Hm.
  set (n := Sig.fresh (Obs.memory w)).
  set (this := Obs.observable_at w b) in *.
  assert (Hn : Sig.cells (Obs.memory w) !! n = None).
  { destruct (Sig.cells (Obs.memory w) !! n) eqn:E; [|reflexivity].
    assert (n < Sig.fresh (Obs.memory w))%nat by (apply (c_allocated w Hw); rewrite E; eauto).
    unfold n in *. lia. }
  assert (Hnin : n ∉ Obs.signal_ this).
  { intros Hin. pose proof (consistent_resolvable w b n Hw Hin) as [cell Hc]. congruence. }
  set (w1 := Obs.registerWith o b w) in *.
  assert (F1 : Obs.observable_at w1 b
               = Obs.mk_Observable (Obs.signal_ this ++ [n]) (<[o := n]> (Obs.connections_ this))).
  { unfold w1. rewrite registerWith_fields, observable_at_insert, decide_True by reflexivity.
    fold this. rewrite (registerObserver_new _ _ _ Hnone). reflexivity. }
  assert (F2 : Obs.memory w1
               = Sig.mk_Memory (<[n := Sig.mk_Cell o 1]> (Sig.cells (Obs.memory w))) (S n)).
  { unfold w1. rewrite registerWith_fields. cbn [Obs.memory]. fold this.
    rewrite (registerObserver_new _ _ _ Hnone). reflexivity. }
  assert (F3 : forall b', b' <> b -> Obs.observable_at w1 b' = Obs.observable_at w b').
  { intros b' Hne. unfold w1. rewrite registerWith_fields, observable_at_insert.
    rewrite decide_False by exact Hne. reflexivity. }
  assert (F4 : forall o', Obs.observables_ w1 o'
                 = if decide (o' = o) then {[b]} ∪ Obs.observables_ w o
                   else Obs.observables_ w o').
  { intros o'. unfold w1. rewrite registerWith_fields. apply observables__insert. }
  assert (F5 : Obs.trace w1 = Obs.trace w) by (unfold w1; rewrite registerWith_fields; reflexivity).
  assert (U : Obs.unregisterObserver o (Obs.observable_at w1 b) (Obs.memory w1)
              = (this, Sig.mk_Memory (Sig.cells (Obs.memory w)) (S n))).
  { rewrite F1, F2. erewrite unregisterObserver_registered;
      [|cbn [Obs.connections_]; apply lookup_insert_eq
       |unfold resolvable; cbn [Sig.cells]; rewrite lookup_insert_eq; eauto].
    cbn [Obs.signal_ Obs.connections_]. f_equal.
    - rewrite filter_app, filter_all.
      + rewrite filter_cons, decide_False by tauto. rewrite app_nil_r.
        rewrite delete_insert_id by exact Hnone. destruct this; reflexivity.
      + apply Forall_forall. intros x Hx ->. contradiction.
    - unfold Sig.release. cbn [Sig.cells]. rewrite lookup_insert_eq.
      cbn [Sig.use_count Pos.eqb Sig.cells Sig.fresh]. f_equal. apply delete_insert_id, Hn. }
  subst w'. rewrite unregisterWith_fields, U. cbn [fst snd].
  split; [|split; [|split; [|split]]].
  - intros b'. rewrite observable_at_insert. destruct (decide (b' = b)) as [->|Hne];
      [reflexivity | apply F3, Hne].
  - intros o'. rewrite observables__insert, !F4.
    destruct (decide (o' = o)) as [->|Hne]; [|reflexivity].
    rewrite decide_True by reflexivity. apply set_eq. intros x.
    rewrite elem_of_difference, elem_of_union, elem_of_singleton. split; [tauto|].
    intros Hx. split; [tauto|]. intros ->. apply Hm in Hx. fold this in Hx.
    rewrite Hnone in Hx. destruct Hx; discriminate.
  - reflexivity.
  - reflexivity.
  - exact F5.
Qed.

(** The connection list of a well-formed Observable is as long as its
    registry. *)
Lemma registry_size mem (this : Obs.Observable) :
  observable_wf mem this -> length (Obs.signal_ this) = size (Obs.connections_ this).
Proof.
  intros [Hnd Hreg Hconn].
  rewrite <- length_map_to_list, <- (length_fmap snd). apply Permutation_length.
  apply NoDup_Permutation; [exact Hnd| |].
  - apply NoDup_fmap_2_strong; [|apply NoDup_map_to_list].
    intros [o1 c1] [o2 c2] H1 H2 Heq. cbn [snd] in Heq. subst c2.
    apply elem_of_map_to_list in H1, H2.
    destruct (Hreg o1 c1 H1) as (_ & cell1 & Hc1 & Hs1).
    destruct (Hreg o2 c1 H2) as (_ & cell2 & Hc2 & Hs2). congruence.
  - intros c. split.
    + intros Hc. destruct (Hconn c Hc) as [o Ho]. apply list_elem_of_fmap.
      exists (o, c). split; [reflexivity | apply elem_of_map_to_list, Ho].
    + intros Hc. apply list_elem_of_fmap in Hc as ([o c'] & -> & Hin).
      apply elem_of_map_to_list in Hin. apply (Hreg o c' Hin).
Qed.

Lemma calls_args (args : Args) mem sig : Forall (fun e => e.2 = args) (calls args mem sig).
Proof.
  induction sig as [|v sig IH]; [constructor|].
  rewrite calls_cons. destruct (Sig.cells mem !! v); [constructor; [reflexivity|]|]; exact IH.
Qed.

(** X16: one notify calls every registered Observer exactly once with the
    notified arguments and calls nobody else: the number of calls is the
    number of registry entries. *)
Theorem notify_calls_each_registered_once
    (ops : list (Obs.Op Args)) (b : nat) (args : Args) :
  let w := Obs.run ops Obs.new_World in
  exists new,
    Obs.trace (Obs.notify b args w) = Obs.trace w ++ new
    /\ length new = size (Obs.connections_ (Obs.observable_at w b))
    /\ Forall (fun e => e.2 = args) new
    /\ forall o, calls_on o new
                 = if decide (is_Some (Obs.connections_ (Obs.observable_at w b) !! o))
                   then [(o, args)] else [].
Proof.
  intros w. destruct (invariant_reachable ops) as [Hw _]. fold w in Hw.
  eexists. split; [apply trace_notify, Hw|]. split; [|split].
  - rewrite calls_length, filter_all.
    + apply (registry_size _ _ (c_observable w Hw b)).
    + apply Forall_forall. intros c Hc. apply (consistent_resolvable w b c Hw Hc).
  - apply calls_args.
  - intros o. rewrite (calls_on_emission o b args w Hw).
    destruct (Obs.connections_ (Obs.observable_at w b) !! o) eqn:E.
    + rewrite decide_True by eauto. reflexivity.
    + rewrite decide_False by (intros [? ?]; discriminate). reflexivity.
Qed.

(** X17: in every state the calls of the library reach, all weak references of
    an Observable's Signal resolve, so a notify prunes nothing: it leaves
    the memory, every Observable and every tracked set as they were and only
    extends the trace. *)
Theorem notify_changes_only_the_trace (ops : list (Obs.Op Args)) (b : nat) (args : Args) :
  let w := Obs.run ops Obs.new_World in
  let w' := Obs.notify b args w in
  Obs.memory w' = Obs.memory w
  /\ (forall b', Obs.observable_at w' b' = Obs.observable_at w b')
  /\ Obs.observers w' = Obs.observers w
  /\ Forall (resolvable (Obs.memory w)) (Obs.signal_ (Obs.observable_at w b))
  /\ exists new, Obs.trace w' = Obs.trace w ++ new.
Proof.
  intros w w'. destruct (invariant_reachable ops) as [Hw _]. fold w in Hw.
  subst w'. rewrite (notify_spec b args w Hw). cbn [Obs.memory Obs.observers Obs.trace].
  split; [reflexivity|]. split; [|split; [reflexivity|split; [|eauto]]].
  - intros b'. rewrite observable_at_insert. destruct (decide (b' = b)) as [->|]; reflexivity.
  - apply Forall_forall. intros c Hc. apply (consistent_resolvable w b c Hw Hc).
Qed.

(** X18: an Observer registered for the first time is notified after all the
    Observers registered before it. *)
Theorem new_observer_is_notified_last (ops : list (Obs.Op Args)) (o b : nat) (args : Args) :
  let w := Obs.run ops Obs.new_World in
  Obs.connections_ (Obs.observable_at w b) !! o = None ->
  Obs.trace (Obs.notify b args (Obs.registerWith o b w))
  = Obs.trace (Obs.notify b args w) ++ [(o, args)].
Proof.
  intros w Hnone. destruct (invariant_reachable ops) as [Hw Hm]. fold w in Hw, Hm.
  pose proof (consistent_registerWith o b w Hw) as Hw1.
  rewrite (trace_notify b args _ Hw1), (trace_notify b args w Hw).
  rewrite registerWith_fields. cbn [Obs.trace Obs.memory].
  rewrite observable_at_insert, decide_True by reflexivity.
  rewrite (registerObserver_new _ _ _ Hnone). cbn [fst snd Obs.signal_].
  set (n := Sig.fresh (Obs.memory w)).
  assert (Hnin : n ∉ Obs.signal_ (Obs.observable_at w b)).
  { intros Hin. pose proof (consistent_resolvable w b n Hw Hin) as Hc.
    apply (c_allocated w Hw) in Hc. fold n in Hc. lia. }
  rewrite calls_app, calls_cons. cbn [Sig.cells]. rewrite lookup_insert_eq.
  cbn [Sig.cell_slot]. rewrite <- app_assoc. f_equal. f_equal.
  apply calls_ext. intros x Hx. cbn [Sig.cells]. apply lookup_insert_ne.
  intros <-. contradiction.
Qed.

(** The calls on the entries other than [c], when [c] is the only entry
    whose slot calls [o]. *)
Lemma calls_filter_slot (o c : nat) (args : Args) mem mem' (sig : list nat) :
  (forall x, x ∈ sig -> x <> c -> Sig.cells mem' !! x = Sig.cells mem !! x) ->
  (forall x cell, x ∈ sig -> Sig.cells mem !! x = Some cell ->
                  (Sig.cell_slot cell = o <-> x = c)) ->
  calls args mem' (filter (fun x => x <> c) sig)
  = filter (fun e => e.1 <> o) (calls args mem sig).
Proof.
  induction sig as [|v sig IH]; intros Hsame Hslot; [reflexivity|].
  assert (IH' : calls args mem' (filter (fun x => x <> c) sig)
                = filter (fun e => e.1 <> o) (calls args mem sig)).
  { apply IH; [intros x Hx; apply Hsame; right; exact Hx
              |intros x cell Hx; apply Hslot; right; exact Hx]. }
  rewrite filter_cons, (calls_cons args mem). destruct (decide (v <> c)) as [Hne|Heq].
  - rewrite calls_cons, Hsame by (left || exact Hne).
    destruct (Sig.cells mem !! v) as [cell|] eqn:E; [|exact IH'].
    rewrite filter_cons. cbn [fst].
    rewrite decide_True by (intros Hs; apply Hne, (Hslot v cell); [left|exact E|exact Hs]).
    rewrite IH'. reflexivity.
  - assert (v = c) as -> by (destruct (decide (v = c)); [assumption|contradiction]).
    destruct (Sig.cells mem !! c) as [cell|] eqn:E; [|exact IH'].
    rewrite filter_cons. cbn [fst].
    rewrite decide_False; [exact IH'|].
    intros Hs. apply Hs. apply (Hslot c cell); [left|exact E|reflexivity].
Qed.

Lemma calls_registered b (args : Args) w e :
  consistent w ->
  e ∈ calls args (Obs.memory w) (Obs.signal_ (Obs.observable_at w b)) ->
  is_Some (Obs.connections_ (Obs.observable_at w b) !! e.1).
Proof.
  intros Hw He. destruct (c_observable w Hw b) as [_ Hreg Hconn].
  unfold calls in He. apply list_elem_of_omap in He as (c & Hc & Hcell).
  destruct (Sig.cells (Obs.memory w) !! c) as [cell|] eqn:E; [|discriminate].
  cbn in Hcell. injection Hcell as <-. cbn [fst].
  destruct (Hconn c Hc) as [o' Ho']. destruct (Hreg o' c Ho') as (_ & cell' & Hc' & Hs').
  assert (cell' = cell) as -> by congruence. rewrite Hs'. rewrite Ho'. eauto.
Qed.

(** X19: after [unregisterWith] a notify makes the calls it made before, in the
    same order, except the call on the unregistered Observer. *)
Theorem unregistered_observer_is_skipped (ops : list (Obs.Op Args)) (o b : nat) (args : Args) :
  let w := Obs.run ops Obs.new_World in
  let w' := Obs.unregisterWith o b w in
  exists new,
    Obs.trace (Obs.notify b args w) = Obs.trace w ++ new
    /\ Obs.trace (Obs.notify b args w') = Obs.trace w ++ filter (fun e => e.1 <> o) new
    /\ Obs.connections_ (Obs.observable_at w' b) !! o = None
    /\ forall o', o' <> o ->
          Obs.connections_ (Obs.observable_at w' b) !! o'
          = Obs.connections_ (Obs.observable_at w b) !! o'.
Proof.
  intros w w'. destruct (invariant_reachable ops) as [Hw Hm]. fold w in Hw, Hm.
  pose proof (consistent_unregisterWith o b w Hw) as Hw'. fold w' in Hw'.
  exists (calls args (Obs.memory w) (Obs.signal_ (Obs.observable_at w b))).
  split; [apply trace_notify, Hw|].
  assert (Hreg' : forall o', Obs.connections_ (Obs.observable_at w' b) !! o'
                    = if decide (b = b /\ o' = o) then None
                      else Obs.connections_ (Obs.observable_at w b) !! o').
  { intros o'. unfold w', Obs.unregisterWith. rewrite observable_at_observers.
    apply registry_unregister. }
  split; [|split].
  - rewrite (trace_notify b args w' Hw'). unfold w' at 1. rewrite unregisterWith_fields.
    cbn [Obs.trace]. f_equal. unfold w'. rewrite unregisterWith_fields.
    cbn [Obs.memory]. rewrite observable_at_insert, decide_True by reflexivity.
    destruct (Obs.connections_ (Obs.observable_at w b) !! o) as [c|] eqn:E.
    + destruct (consistent_registered w b o c Hw E) as (Hin & (cell & Hcell & Hslot) & _).
      rewrite unregisterObserver_registered with (c := c);
        [|exact E|unfold resolvable; rewrite Hcell; eauto].
      cbn [fst snd Obs.signal_]. apply calls_filter_slot.
      * intros x _ Hne. apply cells_release_ne, Hne.
      * intros x cell' Hx Hcell'. destruct (c_observable w Hw b) as [_ Hreg Hconn].
        destruct (Hconn x Hx) as [o' Ho']. destruct (Hreg o' x Ho') as (_ & cell'' & Hc'' & Hs'').
        assert (cell'' = cell') as -> by congruence. split.
        -- intros Hs. assert (o' = o) as -> by congruence. congruence.
        -- intros ->. congruence.
    + rewrite (unregisterObserver_unregistered _ _ _ E). cbn [fst snd].
      symmetry. apply filter_all, Forall_forall. intros e He Heq.
      pose proof (calls_registered b args w e Hw He) as [c Hc]. congruence.
  - rewrite Hreg', decide_True by tauto. reflexivity.
  - intros o' Hne. rewrite Hreg', decide_False by tauto. reflexivity.
Qed.

(** X20: the destruction of an Observer leaves every other Observer as it was:
    its registry entries, its tracked set, and the calls a notify makes on
    it. *)
Theorem destroy_leaves_other_observers (ops : list (Obs.Op Args)) (o o' b : nat) (args : Args) :
  o' <> o ->
  let w := Obs.run ops Obs.new_World in
  let w' := Obs.destroy o w in
  Obs.connections_ (Obs.observable_at w' b) !! o'
  = Obs.connections_ (Obs.observable_at w b) !! o'
  /\ Obs.observables_ w' o' = Obs.observables_ w o'
  /\ calls_on o' (calls args (Obs.memory w') (Obs.signal_ (Obs.observable_at w' b)))
     = calls_on o' (calls args (Obs.memory w) (Obs.signal_ (Obs.observable_at w b))).
Proof.
  intros Hne w w'. destruct (invariant_reachable ops) as [Hw Hm]. fold w in Hw, Hm.
  pose proof (consistent_destroy o w Hw) as Hw'. fold w' in Hw'.
  assert (Hreg : Obs.connections_ (Obs.observable_at w' b) !! o'
                 = Obs.connections_ (Obs.observable_at w b) !! o').
  { unfold w'. rewrite destroy_unregister_all. cbv zeta.
    rewrite observable_at_observers, registry_unregister_all, decide_False by tauto.
    reflexivity. }
  split; [exact Hreg|]. split.
  - unfold w'. rewrite destroy_unregister_all. cbv zeta.
    rewrite observables__delete, decide_False by exact Hne.
    unfold Obs.observables_. rewrite observers_unregister_all. reflexivity.
  - rewrite (calls_on_emission o' b args w' Hw'), (calls_on_emission o' b args w Hw), Hreg.
    reflexivity.
Qed.

(** *** Ownership of the connection blocks *)

Lemma sole_owner_irrel w1 w2 :
  Obs.memory w1 = Obs.memory w2 ->
  (forall b, Obs.observable_at w1 b = Obs.observable_at w2 b) ->
  sole_owner w1 -> sole_owner w2.
Proof.
  intros Hm Hb H c cell Hc. rewrite <- Hm in Hc. destruct (H c cell Hc) as [H1 [b H2]].
  split; [exact H1|]. exists b. rewrite <- Hb. exact H2.
Qed.

Lemma sole_owner_register o b w :
  consistent w -> sole_owner w ->
  sole_owner (Obs.call_Observable (Obs.registerObserver o) b w).
Proof.
  intros Hw Ho.
  destruct (Obs.connections_ (Obs.observable_at w b) !! o) as [c|] eqn:E.
  { apply (sole_owner_irrel w); [| |exact Ho].
    - rewrite memory_call, (registerObserver_registered _ _ _ _ E). reflexivity.
    - intros b'. rewrite observable_at_call, (registerObserver_registered _ _ _ _ E).
      destruct (decide (b' = b)) as [->|]; reflexivity. }
  intros c cell. rewrite memory_call, (registerObserver_new _ _ _ E). cbn [snd Sig.cells].
  set (n := Sig.fresh (Obs.memory w)).
  destruct (decide (c = n)) as [->|Hne].
  - rewrite lookup_insert_eq. intros [= <-]. split; [reflexivity|]. exists b.
    rewrite observable_at_call, decide_True by reflexivity.
    rewrite (registerObserver_new _ _ _ E). cbn [fst Obs.connections_ Sig.cell_slot].
    apply lookup_insert_eq.
  - rewrite lookup_insert_ne by congruence. intros Hc.
    destruct (Ho c cell Hc) as [H1 [b' H2]]. split; [exact H1|]. exists b'.
    rewrite observable_at_call. destruct (decide (b' = b)) as [->|]; [|exact H2].
    rewrite (registerObserver_new _ _ _ E). cbn [fst Obs.connections_].
    rewrite lookup_insert_ne; [exact H2|]. intros Heq. rewrite <- Heq in H2. congruence.
Qed.

Lemma sole_owner_unregister o b w :
  consistent w -> sole_owner w ->
  sole_owner (Obs.call_Observable (Obs.unregisterObserver o) b w).
Proof.
  intros Hw Ho.
  destruct (Obs.connections_ (Obs.observable_at w b) !! o) as [c|] eqn:E.
  2:{ apply (sole_owner_irrel w); [| |exact Ho].
    - rewrite memory_call, (unregisterObserver_unregistered _ _ _ E). reflexivity.
    - intros b'. rewrite observable_at_call, (unregisterObserver_unregistered _ _ _ E).
      destruct (decide (b' = b)) as [->|]; reflexivity. }
  destruct (consistent_registered w b o c Hw E) as (_ & (cell & Hcell & Hslot) & _).
  assert (Hres : resolvable (Obs.memory w) c) by (unfold resolvable; rewrite Hcell; eauto).
  destruct (Ho c cell Hcell) as [Hone _].
  intros c' cell'. rewrite memory_call, (unregisterObserver_registered _ _ _ _ E Hres).
  cbn [snd]. rewrite cells_release, Hcell. apply Pos.eqb_eq in Hone. rewrite Hone.
  destruct (decide (c' = c)) as [->|Hne]; [discriminate|]. intros Hc'.
  destruct (Ho c' cell' Hc') as [H1 [b' H2]]. split; [exact H1|]. exists b'.
  rewrite registry_unregister.
  destruct (decide (b' = b /\ Sig.cell_slot cell' = o)) as [[-> Hs]|_]; [|exact H2].
  rewrite Hs in H2. congruence.
Qed.

Lemma sole_owner_unregister_all o l w :
  consistent w -> sole_owner w -> sole_owner (Obs.unregister_all o l w).
Proof.
  revert w. induction l as [|b l IH]; intros w Hw Ho; [exact Ho|].
  rewrite unregister_all_cons.
  apply IH; [apply consistent_unregister, Hw | apply sole_owner_unregister; assumption].
Qed.

Lemma sole_owner_step w op : consistent w -> sole_owner w -> sole_owner (Obs.step w op).
Proof.
  intros Hw Ho. destruct op as [o b|o b|o|b args]; cbn [Obs.step].
  - apply (sole_owner_irrel (Obs.call_Observable (Obs.registerObserver o) b w));
      [reflexivity|reflexivity|]. apply sole_owner_register; assumption.
  - apply (sole_owner_irrel (Obs.call_Observable (Obs.unregisterObserver o) b w));
      [reflexivity|reflexivity|]. apply sole_owner_unregister; assumption.
  - apply (sole_owner_irrel (Obs.unregister_all o (elements (Obs.observables_ w o)) w));
      [reflexivity|reflexivity|]. apply sole_owner_unregister_all; assumption.
  - rewrite (notify_spec b args w Hw). apply (sole_owner_irrel w); [reflexivity| |exact Ho].
    intros b'. rewrite observable_at_insert. destruct (decide (b' = b)) as [->|]; reflexivity.
Qed.

Lemma sole_owner_reachable (ops : list (Obs.Op Args)) :
  sole_owner (Obs.run ops Obs.new_World).
Proof.
  assert (forall w, consistent w -> sole_owner w -> sole_owner (Obs.run ops w)) as H.
  { induction ops as [|op ops IH]; intros w Hw Ho; [exact Ho|].
    apply IH; [apply consistent_step, Hw | apply sole_owner_step; assumption]. }
  apply H; [apply consistent_new_World|].
  intros c cell. unfold Obs.new_World. cbn [Obs.memory Sig.cells].
  rewrite lookup_empty. discriminate.
Qed.

(** X21: the registry holds the only strong handle of a connection.  In every
    state the calls of the library reach, the blocks of the memory are
    exactly the connections in the registries, each with one owner; hence
    [unregisterWith] frees the block of the connection it removes. *)
Theorem registries_own_the_connections (ops : list (Obs.Op Args)) (o b : nat) :
  let w := Obs.run ops Obs.new_World in
  (forall c, resolvable (Obs.memory w) c
             <-> exists b' o', Obs.connections_ (Obs.observable_at w b') !! o' = Some c)
  /\ (forall c cell, Sig.cells (Obs.memory w) !! c = Some cell ->
                     Sig.use_count cell = 1%positive)
  /\ (forall c, Obs.connections_ (Obs.observable_at w b) !! o = Some c ->
                Sig.cells (Obs.memory (Obs.unregisterWith o b w)) !! c = None).
Proof.
  intros w. destruct (invariant_reachable ops) as [Hw _]. fold w in Hw.
  pose proof (sole_owner_reachable ops) as Ho. fold w in Ho.
  split; [|split].
  - intros c. split.
    + intros [cell Hc]. destruct (Ho c cell Hc) as [_ [b' H]]. eauto.
    + intros (b' & o' & H).
      destruct (consistent_registered w b' o' c Hw H) as (_ & (cell & Hcell & _) & _).
      unfold resolvable. rewrite Hcell. eauto.
  - intros c cell Hc. apply (Ho c cell Hc).
  - intros c Hc.
    destruct (consistent_registered w b o c Hw Hc) as (_ & (cell & Hcell & _) & _).
    rewrite unregisterWith_fields. cbn [Obs.memory].
    rewrite unregisterObserver_registered with (c := c);
      [|exact Hc|unfold resolvable; rewrite Hcell; eauto].
    cbn [snd]. rewrite cells_release, decide_True by reflexivity. rewrite Hcell.
    destruct (Ho c cell Hcell) as [Hone _]. apply Pos.eqb_eq in Hone. rewrite Hone. reflexivity.
Qed.

End ObservableUse.

Lemma destroy_leaves_other_observers_witness :
  2%nat <> 1%nat
  /\ Obs.observables_
       (Obs.destroy 1%nat
          (Obs.run [Obs.RegisterWith 1%nat 7%nat; Obs.RegisterWith 2%nat 7%nat]
                   (@Obs.new_World nat))) 2%nat
     = Obs.observables_
         (Obs.run [Obs.RegisterWith 1%nat 7%nat; Obs.RegisterWith 2%nat 7%nat]
                  (@Obs.new_World nat)) 2%nat.
Proof.
  assert (2%nat <> 1%nat) as H by lia.
  split; [exact H|].
  apply (destroy_leaves_other_observers
           [Obs.RegisterWith 1%nat 7%nat; Obs.RegisterWith 2%nat 7%nat] 1%nat 2%nat 7%nat
           5%nat H).
Defined.


Lemma new_observer_is_notified_last_witness :
  Obs.connections_
    (Obs.observable_at (Obs.run [Obs.RegisterWith 1%nat 7%nat] (@Obs.new_World nat)) 7%nat)
    !! 2%nat = None
  /\ Obs.trace (Obs.notify 7%nat 5%nat
                  (Obs.registerWith 2%nat 7%nat
                     (Obs.run [Obs.RegisterWith 1%nat 7%nat] Obs.new_World)))
     = Obs.trace (Obs.notify 7%nat 5%nat
                    (Obs.run [Obs.RegisterWith 1%nat 7%nat] Obs.new_World))
       ++ [(2%nat, 5%nat)].
Proof.
  assert (Obs.connections_
            (Obs.observable_at (Obs.run [Obs.RegisterWith 1%nat 7%nat] (@Obs.new_World nat)) 7%nat)
            !! 2%nat = None) as H by reflexivity.
  split; [exact H|].
  apply (new_observer_is_notified_last [Obs.RegisterWith 1%nat 7%nat] 2%nat 7%nat 5%nat H).
Defined.


Lemma register_then_unregister_restores_witness :
  Obs.connections_ (Obs.observable_at (Obs.run [] (@Obs.new_World nat)) 7%nat) !! 1%nat = None
  /\ Sig.cells (Obs.memory (Obs.unregisterWith 1%nat 7%nat
                             (Obs.registerWith 1%nat 7%nat (Obs.run [] (@Obs.new_World nat)))))
     = Sig.cells (Obs.memory (Obs.run [] (@Obs.new_World nat))).
Proof.
  assert (Obs.connections_ (Obs.observable_at (Obs.run [] (@Obs.new_World nat)) 7%nat) !! 1%nat
          = None) as H by reflexivity.
  split; [exact H|].
  apply (register_then_unregister_restores [] 1%nat 7%nat H).
Defined.

(** ** ObservableValue: reading back *)
Section ObservableValueUse.
Context {T : Type} (ne : T -> T -> bool).

(** X22: when [!=] of the value type is false only on equal values, [get]
    after [set] returns the value that was set, whatever was stored before. *)
Theorem get_after_set (value : T) (this : OV.ObservableValue) (w : Obs.World T) :
  (forall a b, ne a b = false -> a = b) ->
  OV.get (OV.set ne value this w).1 = value.
Proof.
  intros Hne. unfold OV.set, OV.get. cbn [fst].
  destruct (ne value (OV.value_ this)) eqn:E; [reflexivity|].
  symmetry. apply Hne, E.
Qed.

End ObservableValueUse.

Lemma get_after_set_witness :
  (forall a b : nat, negb (a =? b)%nat = false -> a = b)
  /\ OV.get (OV.set (fun a b => negb (a =? b)%nat) 4%nat (OV.mk_OV 7%nat 3%nat)
                    (@Obs.new_World nat)).1 = 4%nat.
Proof.
  assert (forall a b : nat, negb (a =? b)%nat = false -> a = b) as H.
  { intros a b E. apply negb_false_iff, Nat.eqb_eq in E. exact E. }
  split; [exact H|].
  apply (get_after_set (fun a b => negb (a =? b)%nat) 4%nat (OV.mk_OV 7%nat 3%nat)
                       Obs.new_World H).
Defined.
